(** * Word aligner: tokenizer and alignment assembler

    A shallow embedding of [src/word_aligner.py].  The module wraps the
    [simalign] sentence aligner: it splits both texts into whitespace
    delimited words with their character offsets, hands the two word lists
    to the aligner, and maps the index pairs of the configured matching
    method back to words and offsets.

    Python values are modelled as follows.
    - [str] is a sequence of Unicode code points: [list N].
    - [int] is [Z].
    - A tuple [(word, start, end)] is a Rocq triple.
    - The [dict] returned by the aligner is an association list in
      insertion order, which is the order [.items()] iterates in.
    - Exceptions are the left summand of a sum type.
    - The call into the external aligner is recorded in a call log that is
      threaded through a small state-and-exception monad. *)

From Stdlib Require Import Ascii String ZArith NArith QArith List Bool Lia Sorted.
Import ListNotations.

Close Scope Q_scope.

Local Open Scope Z_scope.

(** ** Strings *)

Module Py.

(** A Python [str]: a sequence of code points. *)
Definition char := N.
Definition str := list char.

(** Code points of an ASCII literal, to write inputs legibly. *)
Fixpoint of_string (s : string) : str :=
  match s with
  | EmptyString => []
  | String c r => N_of_ascii c :: of_string r
  end.

(** [Py_UNICODE_ISSPACE], the class the [re] module uses for [\s] on [str]
    patterns: bidirectional type WS, B or S, or general category Zs. *)
Definition isspace (c : char) : bool :=
  (((9 <=? c) && (c <=? 13)) || ((28 <=? c) && (c <=? 32))
   || (c =? 133) || (c =? 160) || (c =? 5760)
   || ((8192 <=? c) && (c <=? 8202))
   || (c =? 8232) || (c =? 8233) || (c =? 8239) || (c =? 8287)
   || (c =? 12288))%N.

(** [len(l)] as a Python [int]. *)
Definition len {A} (l : list A) : Z := Z.of_nat (length l).

(** Clamping of one slice bound, as [PySlice_AdjustIndices] does for step 1:
    a negative bound counts from the end, and the result is brought back
    into [0 .. len]. *)
Definition slice_bound (n i : Z) : Z :=
  if i <? 0 then Z.max (i + n) 0 else Z.min i n.

(** [l[a:b]]. *)
Definition slice {A} (l : list A) (a b : Z) : list A :=
  let a' := slice_bound (len l) a in
  let b' := slice_bound (len l) b in
  firstn (Z.to_nat (b' - a')) (skipn (Z.to_nat a') l).

End Py.

Import Py.

(** ** Exceptions and the call log *)

(** An exception raised inside the external aligner's [get_word_aligns]:
    its text [str(e)], and whether its class derives from [ValueError],
    which is all an [except ValueError] clause looks at. *)
Record raised : Type := {
  is_value_error : bool;
  raised_str : string
}.

(** [ValueError], [IndexError] and [KeyError] are the exceptions this code
    raises itself.  [UpstreamError] is a failure of the external
    constructor, [AlignerError] an exception that came out of the external
    [get_word_aligns]; it travels unchanged. *)
Inductive exn : Type :=
| ValueError (msg : string)
| IndexError (msg : string)
| KeyError (key : string)
| UpstreamError (descr : string)
| AlignerError (r : raised).

(** One entry per call of [SentenceAligner.get_word_aligns]: the two word
    lists it was given. *)
Definition call_log := list (list str * list str).

(** Computations that may raise and that may call the aligner.  A raised
    exception keeps the log as it was at the [raise]. *)
Definition M (A : Type) : Type := call_log -> (exn + A) * call_log.

Definition ret {A} (x : A) : M A := fun log => (inr x, log).

Definition raise {A} (e : exn) : M A := fun log => (inl e, log).

Definition bind {A B} (c : M A) (k : A -> M B) : M B :=
  fun log =>
    match c log with
    | (inl e, log') => (inl e, log')
    | (inr x, log') => k x log'
    end.

Definition lift {A} (r : exn + A) : M A := fun log => (r, log).

Declare Scope py_scope.
Delimit Scope py_scope with py.
Notation "x <- c ;; k" := (bind c (fun x => k))
  (at level 61, c at next level, right associativity) : py_scope.

(** ** Data model *)

(** The aligner's answer: matching method name to list of index pairs. *)
Definition alignments := list (string * list (Z * Z)).

(** [simalign.SentenceAligner], an external collaborator.  Only the method
    this module calls is kept: it returns the mapping or raises. *)
Record SentenceAligner : Type := {
  get_word_aligns : list str -> list str -> raised + alignments
}.

Definition all_matching_methods : list (string * string) :=
  [ ("a", "inter"); ("m", "mwmf"); ("i", "itermax"); ("f", "fwd"); ("r", "rev") ]%string.

Record AlignmentResult : Type := {
  src_word : str;
  target_word : str;
  src_indexes : Z * Z;
  target_indexes : Z * Z
}.

(** A tokenizer triple [(word, start, end)]. *)
Definition token : Type := str * Z * Z.

(** [tok[0]] *)
Definition tok_word (t : token) : str := fst (fst t).
(** [tok[1:]] *)
Definition tok_span (t : token) : Z * Z := (snd (fst t), snd t).
Definition tok_start (t : token) : Z := snd (fst t).
Definition tok_end (t : token) : Z := snd t.

Record WordAligner : Type := {
  aligner : SentenceAligner;   (* self.__aligner *)
  method : string              (* self.__method *)
}.

(** ** Dictionary and list access *)

(** [d[k]] on a [dict] with [str] keys; [None] stands for [KeyError]. *)
Fixpoint dict_get {V} (d : list (string * V)) (k : string) : option V :=
  match d with
  | [] => None
  | (k', v) :: r => if String.eqb k' k then Some v else dict_get r k
  end.

Definition dict_keys {V} (d : list (string * V)) : list string := map fst d.

(** [l[i]] on a list: a negative index counts from the end; anything
    outside [-len .. len-1] raises [IndexError]. *)
Definition getitem {A} (l : list A) (i : Z) : exn + A :=
  let i' := if i <? 0 then i + len l else i in
  if (i' <? 0) || (len l <=? i') then inl (IndexError "list index out of range")
  else
    match nth_error l (Z.to_nat i') with
    | Some x => inr x
    | None => inl (IndexError "list index out of range")
    end.

(** ** Tokenizer *)

(** [re.finditer(r'\S+', text)] as a left-to-right scan.  [pos] is the
    position of the head of the remaining input.  [open] is the match in
    progress, if any: its start position and the characters consumed so
    far.  [\S+] is greedy, so a match is closed only by a whitespace
    character or by the end of the input, and each closed match yields
    [(m.group(), m.start(), m.end())]. *)
Fixpoint finditer_nonspace (text : str) (pos : Z) (open : option (Z * str))
  : list token :=
  match text with
  | [] =>
      match open with
      | None => []
      | Some (start, w) => [(w, start, pos)]
      end
  | c :: rest =>
      if isspace c then
        match open with
        | None => finditer_nonspace rest (pos + 1) None
        | Some (start, w) => (w, start, pos) :: finditer_nonspace rest (pos + 1) None
        end
      else
        match open with
        | None => finditer_nonspace rest (pos + 1) (Some (pos, [c]))
        | Some (start, w) => finditer_nonspace rest (pos + 1) (Some (start, w ++ [c]))
        end
  end.

(** [WordAligner.__tokenize] *)
Definition tokenize (self : WordAligner) (text : str) : list token :=
  finditer_nonspace text 0 None.

(** ** Assembler *)

Definition call_get_word_aligns (a : SentenceAligner) (src tgt : list str)
  : M alignments :=
  fun log =>
    match get_word_aligns a src tgt with
    | inl r => (inl (AlignerError r), log ++ [(src, tgt)])
    | inr d => (inr d, log ++ [(src, tgt)])
    end.

(** The inner loop, lines 74-85: [method_alignments] is the list being
    appended to. *)
Fixpoint pairs_loop (src_text_tokenize target_text_tokenize : list token)
    (pairs : list (Z * Z)) (method_alignments : list AlignmentResult)
  : exn + list AlignmentResult :=
  match pairs with
  | [] => inr method_alignments
  | (src_idx, target_idx) :: rest =>
      match getitem src_text_tokenize src_idx with
      | inl e => inl e
      | inr sw =>
          match getitem target_text_tokenize target_idx with
          | inl e => inl e
          | inr tw =>
              pairs_loop src_text_tokenize target_text_tokenize rest
                (method_alignments ++
                 [ {| src_word := tok_word sw;
                      target_word := tok_word tw;
                      src_indexes := tok_span sw;
                      target_indexes := tok_span tw |} ])
          end
      end
  end.

(** The outer loop, lines 70-89: entries of another method are skipped, the
    first entry of the configured method is assembled and returned, and
    falling off the end returns the empty list. *)
Fixpoint items_loop (self_method : string)
    (src_text_tokenize target_text_tokenize : list token)
    (items : alignments) : exn + list AlignmentResult :=
  match items with
  | [] => inr []
  | (m, pairs) :: rest =>
      if negb (String.eqb m self_method) then
        items_loop self_method src_text_tokenize target_text_tokenize rest
      else
        pairs_loop src_text_tokenize target_text_tokenize pairs []
  end.

Local Open Scope py_scope.

(** [WordAligner.get_word_alignment] *)
Definition get_word_alignment (self : WordAligner) (src_text target_text : str)
  : M (list AlignmentResult) :=
  let src_text_tokenize := tokenize self src_text in
  let src_text_split := map tok_word src_text_tokenize in
  let target_text_tokenize := tokenize self target_text in
  let target_text_split := map tok_word target_text_tokenize in
  if (len src_text_split =? 0) || (len target_text_split =? 0) then
    raise (ValueError "Source or target text is empty")
  else
    alignments <- call_get_word_aligns (aligner self) src_text_split target_text_split ;;
    lift (items_loop (method self) src_text_tokenize target_text_tokenize alignments).

(** ** Construction *)

(** [WordAligner.__init__].  [SentenceAligner_new model token_type
    matching_methods] stands for the external constructor, which may fail
    (model download, unknown method letter).  [None] is the omitted
    argument, whose default is ["m"]. *)
Definition WordAligner_init
    (SentenceAligner_new : string -> string -> string -> string + SentenceAligner)
    (matching_method : option string) : exn + WordAligner :=
  let matching_method :=
    match matching_method with Some k => k | None => "m"%string end in
  match SentenceAligner_new "bert"%string "bpe"%string matching_method with
  | inl descr => inl (UpstreamError descr)
  | inr a =>
      match dict_get all_matching_methods matching_method with
      | None => inl (KeyError matching_method)
      | Some v => inr {| aligner := a; method := v |}
      end
  end.

(** ** What the tokenizer is meant to compute

    These definitions follow the words of the specification, not the
    code: a token is a maximal run of non-whitespace characters, located
    by the text before it and the text after it. *)

Definition nonspace (c : char) : Prop := isspace c = false.

(** The text before a run is empty or ends with whitespace. *)
Definition boundary_before (pre : str) : Prop :=
  pre = [] \/ exists p c, pre = p ++ [c] /\ isspace c = true.

(** The text after a run is empty or starts with whitespace. *)
Definition boundary_after (post : str) : Prop :=
  post = [] \/ exists c q, post = c :: q /\ isspace c = true.

(** [t] is a maximal run of non-whitespace characters of [text], and its
    offsets are the positions of the run in [text]. *)
Definition maximal_run (text : str) (t : token) : Prop :=
  exists pre post,
    text = pre ++ tok_word t ++ post
    /\ tok_word t <> []
    /\ Forall nonspace (tok_word t)
    /\ boundary_before pre
    /\ boundary_after post
    /\ tok_start t = len pre
    /\ tok_end t = len pre + len (tok_word t).

(** Left-to-right order of two tokens: the first ends before the second
    starts. *)
Definition tok_before (t1 t2 : token) : Prop := tok_end t1 < tok_start t2.

(** The scanner's state agrees with the consumed prefix [pre]. *)
Definition open_ok (pre : str) (open : option (Z * str)) : Prop :=
  match open with
  | None => boundary_before pre
  | Some (start, w) =>
      exists pre0,
        pre = pre0 ++ w /\ start = len pre0 /\ w <> []
        /\ Forall nonspace w /\ boundary_before pre0
  end.

(** The record the assembler builds from two tokens. *)
Definition record_of (sw tw : token) : AlignmentResult :=
  {| src_word := tok_word sw;
     target_word := tok_word tw;
     src_indexes := tok_span sw;
     target_indexes := tok_span tw |}.

(** What one index pair resolves to against the two token tables. *)
Definition resolve_pair (src_tokens target_tokens : list token) (p : Z * Z)
  : exn + AlignmentResult :=
  match getitem src_tokens (fst p) with
  | inl e => inl e
  | inr sw =>
      match getitem target_tokens (snd p) with
      | inl e => inl e
      | inr tw => inr (record_of sw tw)
      end
  end.

(** The record's words are the slices of the two texts at its spans. *)
Definition round_trip (src_text target_text : str) (r : AlignmentResult) : Prop :=
  src_word r = slice src_text (fst (src_indexes r)) (snd (src_indexes r))
  /\ target_word r = slice target_text (fst (target_indexes r)) (snd (target_indexes r)).

(** The word lists handed to the aligner. *)
Definition words (ts : list token) : list str := map tok_word ts.

Definition is_empty {A} (l : list A) : bool :=
  match l with [] => true | _ :: _ => false end.

(** An index a Python list of length [n] accepts. *)
Definition valid_index (n i : Z) : Prop := - n <= i < n.

(** An index within [0 .. n-1], the aligner's contract. *)
Definition in_range (n i : Z) : Prop := 0 <= i < n.

(** ** The forward matching method *)

Module Matcher.

(** The Matcher is part of the [simalign] package and is not among the
    sources.  Every definition of this module is modelled from section
    4.2 of the specification, which describes the forward method: for
    each source index i, select the argmax over j of matrix[i][j] and
    emit the pair of i and that j, ties broken by lowest j.  Similarity
    scores are rationals; a matrix is the list of its rows. *)

(** Modelled from the spec: the Matcher's comparison of two scores, the
    strict order on the rationals. *)
Definition Qltb (x y : Q) : bool :=
  match (x ?= y)%Q with Lt => true | _ => false end.

(** Modelled from the spec: the Matcher's argmax over a row, as a scan of
    the rest of the row.  [j] is the index of the head of [row], [best]
    the largest score seen so far and [best_j] its index.  A later score
    replaces it only when strictly larger. *)
Fixpoint argmax_from (row : list Q) (j best_j : nat) (best : Q) : nat :=
  match row with
  | [] => best_j
  | x :: rest =>
      if Qltb best x then argmax_from rest (S j) j x
      else argmax_from rest (S j) best_j best
  end.

(** Modelled from the spec: the Matcher's argmax of a row, the scan
    started at its first score. *)
Definition argmax (row : list Q) : nat :=
  match row with
  | [] => 0%nat
  | x :: rest => argmax_from rest 1 0 x
  end.

(** Modelled from the spec: the Matcher's forward method on the rows from
    source index [i] on, one pair per row. *)
Fixpoint forward_from (i : nat) (matrix : list (list Q)) : list (Z * Z) :=
  match matrix with
  | [] => []
  | row :: rest => (Z.of_nat i, Z.of_nat (argmax row)) :: forward_from (S i) rest
  end.

(** Modelled from the spec: the Matcher's forward method. *)
Definition forward (matrix : list (list Q)) : list (Z * Z) :=
  forward_from 0 matrix.

(** [j] is the argmax of [row] with ties broken by the lowest index: no
    score is larger than the one at [j], and every score before [j] is
    strictly smaller. *)
Definition lowest_argmax (row : list Q) (j : nat) : Prop :=
  exists x,
    nth_error row j = Some x
    /\ (forall k y, nth_error row k = Some y -> (y <= x)%Q)
    /\ (forall k y, nth_error row k = Some y -> (k < j)%nat -> (y < x)%Q).

(** The two matrices of the specification's scenarios. *)
Definition cat_sat_matrix : list (list Q) :=
  [ [9 # 10; 1 # 10]; [2 # 10; 8 # 10] ]%Q.

Definition tie_matrix : list (list Q) := [ [1 # 2; 1 # 2] ]%Q.

End Matcher.

(** ** The HTTP service, [src/main.py]

    The request handlers read the global [aligner_instance], call the
    aligner through [get_word_alignment] and write to the logger.  The
    global, the aligner's call log and the logger's output form the state
    the handlers run in.  Routing, request validation and the rendering of
    responses belong to the web framework and are not modelled: a handler
    returns its response model or the [HTTPException] it raises. *)

Module AlignmentRequest.
Record t : Type := { st : str; tt : str }.
End AlignmentRequest.

Module AlignmentResponseItem.
Record t : Type := { sw : str; tw : str; si : Z * Z; ti : Z * Z }.
End AlignmentResponseItem.

Module AlignmentResponse.
Record t : Type := { a : list AlignmentResponseItem.t; st : str; tt : str }.
End AlignmentResponse.

Module HealthResponse.
Record t : Type := { status : string; message : string }.
End HealthResponse.

Module HTTPException.
Record t : Type := { status_code : Z; detail : string }.
End HTTPException.

Module Service.

Inductive level : Type := INFO | ERROR.

Record World : Type := {
  aligner_instance : option WordAligner;   (* the module's global *)
  calls : call_log;                        (* calls made into the aligner *)
  logged : list (level * str)              (* what the logger has emitted *)
}.

(** [str(e)].  For a [KeyError] it is the [repr] of the key, written here
    for keys without quotes or escapes. *)
Definition exn_str (e : exn) : string :=
  match e with
  | ValueError msg => msg
  | IndexError msg => msg
  | KeyError key => ("'" ++ key ++ "'")%string
  | UpstreamError descr => descr
  | AlignerError r => raised_str r
  end.

(** [isinstance(e, ValueError)], the test an [except ValueError] clause
    makes.  A failure of the external constructor never reaches a
    request. *)
Definition is_ValueError (e : exn) : bool :=
  match e with
  | ValueError _ => true
  | AlignerError r => is_value_error r
  | _ => false
  end.

Definition set_calls (c : call_log) (w : World) : World :=
  {| aligner_instance := aligner_instance w; calls := c; logged := logged w |}.

Definition set_aligner_instance (i : option WordAligner) (w : World) : World :=
  {| aligner_instance := i; calls := calls w; logged := logged w |}.

(** [logger.info(msg)] and [logger.error(msg)] *)
Definition emit (lv : level) (msg : str) (w : World) : World :=
  {| aligner_instance := aligner_instance w; calls := calls w;
     logged := logged w ++ [(lv, msg)] |}.

(** The three [logger.error] lines of an [except] block of [align_words];
    [label] is ["Validation error: "] or ["Unexpected error: "]. *)
Definition log_failure (request : AlignmentRequest.t) (label : string) (e : exn)
    (w : World) : World :=
  emit ERROR (of_string label ++ of_string (exn_str e))
    (emit ERROR (of_string "Target text: " ++ AlignmentRequest.tt request)
       (emit ERROR (of_string "Source text: " ++ AlignmentRequest.st request) w)).

(** One element of [alignment_items]. *)
Definition item_of (alignment : AlignmentResult) : AlignmentResponseItem.t :=
  {| AlignmentResponseItem.sw := src_word alignment;
     AlignmentResponseItem.tw := target_word alignment;
     AlignmentResponseItem.si := src_indexes alignment;
     AlignmentResponseItem.ti := target_indexes alignment |}.

(** [health_check], the handler of [GET /health] *)
Definition health_check (w : World) : HTTPException.t + HealthResponse.t :=
  match aligner_instance w with
  | None =>
      inl {| HTTPException.status_code := 503;
             HTTPException.detail := "Model not loaded" |}
  | Some _ =>
      inr {| HealthResponse.status := "healthy";
             HealthResponse.message := "Service is running normally, model is loaded" |}
  end.

(** [align_words], the handler of [POST /align].  The 503 is raised
    outside the [try]; inside it, any exception that is a [ValueError],
    whoever raised it, becomes a 400 and any other exception a 500, each
    with [str(e)] as detail. *)
Definition align_words (request : AlignmentRequest.t) (w : World)
  : (HTTPException.t + AlignmentResponse.t) * World :=
  match aligner_instance w with
  | None =>
      (inl {| HTTPException.status_code := 503;
              HTTPException.detail := "Model not loaded. Please try again later." |},
       w)
  | Some inst =>
      match get_word_alignment inst (AlignmentRequest.st request)
              (AlignmentRequest.tt request) (calls w) with
      | (inr alignments, calls') =>
          (inr {| AlignmentResponse.a := map item_of alignments;
                  AlignmentResponse.st := AlignmentRequest.st request;
                  AlignmentResponse.tt := AlignmentRequest.tt request |},
           set_calls calls' w)
      | (inl e, calls') =>
          if is_ValueError e then
            (inl {| HTTPException.status_code := 400;
                    HTTPException.detail := exn_str e |},
             log_failure request "Validation error: " e (set_calls calls' w))
          else
            (inl {| HTTPException.status_code := 500;
                    HTTPException.detail := exn_str e |},
             log_failure request "Unexpected error: " e (set_calls calls' w))
      end
  end.

(** [lifespan] up to its [yield]: the model is loaded with the default
    matching method; a failure is logged and raised again, and the global
    is assigned only on success. *)
Definition lifespan_startup
    (SentenceAligner_new : string -> string -> string -> string + SentenceAligner)
    (w : World) : (exn + unit) * World :=
  let w1 := emit INFO (128640%N :: of_string " Loading WordAligner model...") w in
  match WordAligner_init SentenceAligner_new None with
  | inr inst =>
      (inr tt,
       emit INFO (9989%N :: of_string " WordAligner model successfully loaded!")
         (set_aligner_instance (Some inst) w1))
  | inl e =>
      (inl e,
       emit ERROR (10060%N :: of_string " Error loading model: " ++ of_string (exn_str e)) w1)
  end.

(** [lifespan] after its [yield] *)
Definition lifespan_shutdown (w : World) : World :=
  emit INFO (128260%N :: of_string " Shutting down service...") w.

(** The process before startup. *)
Definition initial : World :=
  {| aligner_instance := None; calls := []; logged := [] |}.

End Service.

(** ** Auxiliary notions for the properties below *)

(** A token moved [k] positions to the right. *)
Definition shift_token (k : Z) (t : token) : token :=
  (tok_word t, tok_start t + k, tok_end t + k).

Definition shift_open (k : Z) (open : option (Z * str)) : option (Z * str) :=
  match open with
  | None => None
  | Some (start, w) => Some (start + k, w)
  end.

Definition nonspaceb (c : char) : bool := negb (isspace c).

(** A pair one of whose indices the token tables reject. *)
Definition invalid_pair (src_tokens target_tokens : list token) (p : Z * Z) : Prop :=
  ~ (valid_index (len src_tokens) (fst p) /\ valid_index (len target_tokens) (snd p)).

(** A span that is non-empty, lies within the text and has the length of
    the word. *)
Definition span_ok (text word : str) (span : Z * Z) : Prop :=
  0 <= fst span < snd span /\ snd span <= len text
  /\ snd span - fst span = len word.

(** A word as the aligner receives it: non-empty and free of
    whitespace. *)
Definition clean_word (w : str) : Prop := w <> [] /\ Forall nonspace w.

(** A text without a word: empty or all whitespace. *)
Definition blank (text : str) : Prop := forallb isspace text = true.

Definition http (code : Z) (d : string) : HTTPException.t :=
  {| HTTPException.status_code := code; HTTPException.detail := d |}.

(** The status and the log label [align_words] gives an exception. *)
Definition status_of (e : exn) : Z :=
  if Service.is_ValueError e then 400 else 500.

Definition label_of (e : exn) : string :=
  if Service.is_ValueError e then "Validation error: " else "Unexpected error: ".

(** The five ways a call of [get_word_alignment] can end. *)
Inductive outcome (self : WordAligner) (src tgt : str) (log : call_log)
  : (exn + list AlignmentResult) * call_log -> Prop :=
| outcome_blank :
    blank src \/ blank tgt ->
    outcome self src tgt log
      (inl (ValueError "Source or target text is empty"), log)
| outcome_upstream r :
    ~ blank src -> ~ blank tgt ->
    get_word_aligns (aligner self) (words (tokenize self src)) (words (tokenize self tgt))
    = inl r ->
    outcome self src tgt log
      (inl (AlignerError r),
       log ++ [(words (tokenize self src), words (tokenize self tgt))])
| outcome_no_entry d :
    ~ blank src -> ~ blank tgt ->
    get_word_aligns (aligner self) (words (tokenize self src)) (words (tokenize self tgt))
    = inr d ->
    dict_get d (method self) = None ->
    outcome self src tgt log
      (inr [], log ++ [(words (tokenize self src), words (tokenize self tgt))])
| outcome_bad_index d pairs :
    ~ blank src -> ~ blank tgt ->
    get_word_aligns (aligner self) (words (tokenize self src)) (words (tokenize self tgt))
    = inr d ->
    dict_get d (method self) = Some pairs ->
    Exists (invalid_pair (tokenize self src) (tokenize self tgt)) pairs ->
    outcome self src tgt log
      (inl (IndexError "list index out of range"),
       log ++ [(words (tokenize self src), words (tokenize self tgt))])
| outcome_records d pairs recs :
    ~ blank src -> ~ blank tgt ->
    get_word_aligns (aligner self) (words (tokenize self src)) (words (tokenize self tgt))
    = inr d ->
    dict_get d (method self) = Some pairs ->
    Forall2 (fun p r => resolve_pair (tokenize self src) (tokenize self tgt) p = inr r)
      pairs recs ->
    outcome self src tgt log
      (inr recs, log ++ [(words (tokenize self src), words (tokenize self tgt))]).

(** The state after a sequence of requests.  [align_words] does not
    suspend, so requests run one after the other. *)
Definition run_requests (requests : list AlignmentRequest.t) (w : Service.World)
  : Service.World :=
  fold_left (fun w request => snd (Service.align_words request w)) requests w.

(** ** Concrete runs *)

Definition demo_aligner : SentenceAligner :=
  {| get_word_aligns := fun src tgt =>
       inr [ ("mwmf"%string, [(0, 0); (1, 1)]) ] |}.

Definition demo_self : WordAligner :=
  {| aligner := demo_aligner; method := "mwmf" |}.

(** An aligner that was asked for the intersection method only. *)
Definition inter_aligner : SentenceAligner :=
  {| get_word_aligns := fun src tgt => inr [ ("inter"%string, [(0, 0)]) ] |}.

Definition inter_self : WordAligner :=
  {| aligner := inter_aligner; method := "mwmf" |}.

(** A constructor of the external aligner that succeeds. *)
Definition demo_new (model token_type matching_methods : string)
  : string + SentenceAligner := inr demo_aligner.

(** A service whose model is loaded. *)
Definition loaded_world : Service.World :=
  {| Service.aligner_instance := Some demo_self;
     Service.calls := []; Service.logged := [] |}.

Definition blank_request : AlignmentRequest.t :=
  {| AlignmentRequest.st := of_string "   "; AlignmentRequest.tt := of_string "chat" |}.

Definition cat_request : AlignmentRequest.t :=
  {| AlignmentRequest.st := of_string "the cat"; AlignmentRequest.tt := of_string " le chat" |}.

(** An aligner that raises an exception that is not a [ValueError]. *)
Definition failing_aligner : SentenceAligner :=
  {| get_word_aligns := fun src tgt =>
       inl {| is_value_error := false; raised_str := "CUDA out of memory" |} |}.

Definition failing_self : WordAligner :=
  {| aligner := failing_aligner; method := "mwmf" |}.

Definition failing_world : Service.World :=
  {| Service.aligner_instance := Some failing_self;
     Service.calls := []; Service.logged := [] |}.

(** An aligner that raises a [ValueError] of its own. *)
Definition value_error_aligner : SentenceAligner :=
  {| get_word_aligns := fun src tgt =>
       inl {| is_value_error := true; raised_str := "invalid token" |} |}.

Definition value_error_self : WordAligner :=
  {| aligner := value_error_aligner; method := "mwmf" |}.

Definition value_error_world : Service.World :=
  {| Service.aligner_instance := Some value_error_self;
     Service.calls := []; Service.logged := [] |}.

(** An aligner whose answer holds an index beyond the token tables. *)
Definition bad_index_aligner : SentenceAligner :=
  {| get_word_aligns := fun src tgt => inr [ ("mwmf"%string, [(0, 0); (5, 1)]) ] |}.

Definition bad_index_world : Service.World :=
  {| Service.aligner_instance :=
       Some {| aligner := bad_index_aligner; method := "mwmf" |};
     Service.calls := []; Service.logged := [] |}.

Definition demo_records : list AlignmentResult :=
  [ {| src_word := of_string "the"; target_word := of_string "le";
       src_indexes := (0, 3); target_indexes := (1, 3) |};
    {| src_word := of_string "cat"; target_word := of_string "chat";
       src_indexes := (4, 7); target_indexes := (4, 8) |} ].

Definition demo_response : AlignmentResponse.t :=
  {| AlignmentResponse.a := map Service.item_of demo_records;
     AlignmentResponse.st := of_string "the cat";
     AlignmentResponse.tt := of_string " le chat" |}.

Example tokenize_demo :
  tokenize demo_self (of_string " ab  c,d ")
  = [ (of_string "ab", 1, 3); (of_string "c,d", 5, 8) ].
Proof. reflexivity. Qed.

Example tokenize_blank : tokenize demo_self (of_string "   ") = [].
Proof. reflexivity. Qed.

(** A no-break space (U+00A0) separates words; a zero-width space
    (U+200B) does not. *)
Example tokenize_unicode :
  tokenize demo_self [97; 160; 98; 8203; 99]%N
  = [ ([97]%N, 0, 1); ([98; 8203; 99]%N, 2, 5) ].
Proof. reflexivity. Qed.

Example get_word_alignment_demo :
  get_word_alignment demo_self (of_string "the cat") (of_string " le chat") []
  = (inr [ {| src_word := of_string "the"; target_word := of_string "le";
              src_indexes := (0, 3); target_indexes := (1, 3) |};
           {| src_word := of_string "cat"; target_word := of_string "chat";
              src_indexes := (4, 7); target_indexes := (4, 8) |} ],
     [ ([of_string "the"; of_string "cat"], [of_string "le"; of_string "chat"]) ]).
Proof. reflexivity. Qed.

Example get_word_alignment_empty_source :
  get_word_alignment demo_self (of_string "") (of_string "anything") []
  = (inl (ValueError "Source or target text is empty"), []).
Proof. reflexivity. Qed.

Example get_word_alignment_blank_source :
  get_word_alignment demo_self (of_string "   ") (of_string "anything") []
  = (inl (ValueError "Source or target text is empty"), []).
Proof. reflexivity. Qed.

(** An index beyond the token table ends the request in [IndexError]; a
    negative one counts from the end, as Python list indexing does. *)
Example pairs_loop_out_of_range :
  pairs_loop (tokenize demo_self (of_string "a")) (tokenize demo_self (of_string "b"))
    [(5, 0)] []
  = inl (IndexError "list index out of range").
Proof. reflexivity. Qed.

Example pairs_loop_negative_index :
  pairs_loop (tokenize demo_self (of_string "a b")) (tokenize demo_self (of_string "c"))
    [(-1, 0)] []
  = inr [ {| src_word := of_string "b"; target_word := of_string "c";
             src_indexes := (2, 3); target_indexes := (0, 1) |} ].
Proof. reflexivity. Qed.

(** ** Lists and slices *)

Section ListFacts.
Context {A : Type}.
Implicit Types l k : list A.

Lemma len_app l k : len (l ++ k) = len l + len k.
Proof. unfold len. rewrite length_app. lia. Qed.

Lemma len_nonneg l : 0 <= len l.
Proof. unfold len. lia. Qed.

Lemma app_eq_len l1 l2 k1 k2 :
  l1 ++ l2 = k1 ++ k2 -> len l1 = len k1 -> l1 = k1 /\ l2 = k2.
Proof.
  unfold len. revert k1.
  induction l1 as [|x l1 IH]; intros [|y k1] E L; simpl in *; try lia.
  - split; [reflexivity | assumption].
  - injection E as -> E. destruct (IH k1 E) as [-> ->]; [lia | auto].
Qed.

Lemma skipn_len_app l k : skipn (length l) (l ++ k) = k.
Proof. induction l; simpl; auto. Qed.

Lemma firstn_len_app l k : firstn (length l) (l ++ k) = l.
Proof. induction l; simpl; [destruct k | f_equal]; auto. Qed.

Lemma nonempty_last l : l <> [] -> exists l' x, l = l' ++ [x].
Proof.
  intros H. destruct (exists_last H) as (l' & x & ->). eauto.
Qed.

(** The slice between the two ends of a middle segment is that segment. *)
Lemma slice_middle l w k :
  slice (l ++ w ++ k) (len l) (len l + len w) = w.
Proof.
  unfold slice, slice_bound. rewrite !len_app.
  pose proof (len_nonneg l). pose proof (len_nonneg w). pose proof (len_nonneg k).
  destruct (Z.ltb_spec (len l) 0); [lia|].
  destruct (Z.ltb_spec (len l + len w) 0); [lia|].
  rewrite !Z.min_l by lia.
  replace (len l + len w - len l) with (len w) by lia.
  unfold len. rewrite !Nat2Z.id.
  rewrite skipn_len_app. apply firstn_len_app.
Qed.
End ListFacts.

(** ** Runs and boundaries *)

Lemma token_eta (t : token) : t = (tok_word t, tok_start t, tok_end t).
Proof. destruct t as [[w a] b]. reflexivity. Qed.

Lemma boundary_before_snoc pre c : isspace c = true -> boundary_before (pre ++ [c]).
Proof. intros H. right. eauto. Qed.

(** Text that ends with a non-whitespace character is no left boundary. *)
Lemma boundary_before_run p w :
  w <> [] -> Forall nonspace w -> boundary_before (p ++ w) -> False.
Proof.
  intros Hne Hw [E | (q & c & E & Hc)].
  - apply app_eq_nil in E. tauto.
  - destruct (nonempty_last w Hne) as (w' & x & ->).
    rewrite app_assoc in E. apply app_inj_tail in E as [_ ->].
    apply Forall_app in Hw as [_ Hx]. inversion Hx as [|? ? Hx' _]; subst.
    unfold nonspace in Hx'. congruence.
Qed.

(** A run is located by where it ends: two runs that end at the same place
    of the same text are the same run. *)
Lemma run_unique p1 w1 p2 w2 :
  p1 ++ w1 = p2 ++ w2 ->
  Forall nonspace w1 -> Forall nonspace w2 ->
  boundary_before p1 -> boundary_before p2 ->
  p1 = p2 /\ w1 = w2.
Proof.
  intros E H1 H2 B1 B2.
  destruct (app_eq_app _ _ _ _ E) as (l & [[-> ->] | [-> ->]]).
  - destruct l as [|x l].
    + rewrite app_nil_r. auto.
    + exfalso. apply Forall_app in H2 as [Hl _].
      apply (boundary_before_run p2 (x :: l)); [discriminate | assumption | assumption].
  - destruct l as [|x l].
    + rewrite app_nil_r. auto.
    + exfalso. apply Forall_app in H1 as [Hl _].
      apply (boundary_before_run p1 (x :: l)); [discriminate | assumption | assumption].
Qed.

Lemma maximal_run_end_le text t : maximal_run text t -> tok_end t <= len text.
Proof.
  intros (pre & post & -> & _ & _ & _ & _ & _ & ->).
  rewrite !len_app. pose proof (len_nonneg post). lia.
Qed.

(** A run that ends where the prefix [pre] ends lies inside [pre], and
    what follows [pre] is its right boundary. *)
Lemma maximal_run_split pre s t :
  maximal_run (pre ++ s) t -> tok_end t = len pre ->
  exists p,
    pre = p ++ tok_word t /\ tok_start t = len p /\ tok_word t <> []
    /\ Forall nonspace (tok_word t) /\ boundary_before p /\ boundary_after s.
Proof.
  intros (p & post & E & Hne & Hw & Bp & Bpost & Hs & He) Hend.
  rewrite app_assoc in E.
  apply app_eq_len in E as [-> ->]; [| rewrite len_app; lia].
  exists p. auto 10.
Qed.

Lemma maximal_run_slice text t :
  maximal_run text t -> tok_word t = slice text (tok_start t) (tok_end t).
Proof.
  intros (pre & post & -> & _ & _ & _ & _ & -> & ->).
  symmetry. apply slice_middle.
Qed.

(** ** The scanner *)

(** What the scanner still yields after consuming [pre]: the maximal runs
    of the whole text that end at or after the current position. *)
Lemma finditer_nonspace_spec s :
  forall pre open, open_ok pre open ->
  forall t,
    In t (finditer_nonspace s (len pre) open)
    <-> maximal_run (pre ++ s) t /\ len pre <= tok_end t.
Proof.
  induction s as [|c s IH]; intros pre open Hok t.
  - (* end of input *)
    rewrite app_nil_r. destruct open as [[start w]|]; simpl.
    + destruct Hok as (pre0 & -> & -> & Hne & Hw & B0). split.
      * intros [<- | []]. split; [| unfold tok_end; simpl; lia].
        exists pre0, []. rewrite app_nil_r. unfold tok_word, tok_start, tok_end; simpl.
        rewrite len_app. repeat split; auto. left; reflexivity.
      * intros [Hmr Hle]. left.
        pose proof (maximal_run_end_le _ _ Hmr) as Hub.
        rewrite <- (app_nil_r (pre0 ++ w)) in Hmr.
        destruct (maximal_run_split _ _ _ Hmr) as (p & E & Hs & _ & Hw' & Bp & _); [lia|].
        destruct (run_unique _ _ _ _ E Hw Hw' B0 Bp) as [-> ->].
        symmetry. etransitivity; [apply token_eta|]. rewrite Hs. f_equal. lia.
    + split; [intros [] |]. intros [Hmr Hle].
      pose proof (maximal_run_end_le _ _ Hmr) as Hub.
      rewrite <- (app_nil_r pre) in Hmr.
      destruct (maximal_run_split _ _ _ Hmr) as (p & E & _ & Hne & Hw & _ & _); [lia|].
      rewrite E in Hok. exact (boundary_before_run _ _ Hne Hw Hok).
  - (* one more character *)
    assert (Hlen : len pre + 1 = len (pre ++ [c])) by (rewrite len_app; reflexivity).
    assert (Htext : pre ++ c :: s = (pre ++ [c]) ++ s) by (rewrite <- app_assoc; reflexivity).
    simpl. destruct (isspace c) eqn:Hc.
    + destruct open as [[start w]|].
      * (* whitespace closes the open match *)
        destruct Hok as (pre0 & -> & -> & Hne & Hw & B0).
        simpl. rewrite Hlen, (IH _ None (boundary_before_snoc _ _ Hc)), <- Htext, <- Hlen.
        split.
        -- intros [<- | [Hmr Hle]].
           ++ split; [| unfold tok_end; simpl; lia].
              exists pre0, (c :: s). rewrite <- app_assoc.
              unfold tok_word, tok_start, tok_end; simpl.
              rewrite len_app. repeat split; auto. right; eauto.
           ++ split; [assumption | lia].
        -- intros [Hmr Hle].
           destruct (Z.eq_dec (tok_end t) (len (pre0 ++ w))) as [Hend | Hend].
           ++ left.
              destruct (maximal_run_split _ _ _ Hmr Hend) as (p & E & Hs & _ & Hw' & Bp & _).
              destruct (run_unique _ _ _ _ E Hw Hw' B0 Bp) as [-> ->].
              symmetry. etransitivity; [apply token_eta|]. rewrite Hs, Hend. reflexivity.
           ++ right. split; [assumption | lia].
      * (* whitespace between matches *)
        simpl in Hok.
        rewrite Hlen, (IH _ None (boundary_before_snoc _ _ Hc)), <- Htext, <- Hlen.
        split; intros [Hmr Hle]; (split; [assumption|]); [lia|].
        destruct (Z.eq_dec (tok_end t) (len pre)) as [Hend | Hend]; [| lia].
        exfalso.
        destruct (maximal_run_split _ _ _ Hmr Hend) as (p & E & _ & Hne & Hw & _ & _).
        rewrite E in Hok. exact (boundary_before_run _ _ Hne Hw Hok).
    + (* a non-whitespace character opens or extends a match *)
      assert (Hok' : open_ok (pre ++ [c])
                (match open with
                 | None => Some (len pre, [c])
                 | Some (start, w) => Some (start, w ++ [c])
                 end)).
      { destruct open as [[start w]|]; simpl.
        - destruct Hok as (pre0 & -> & -> & Hne & Hw & B0).
          exists pre0. rewrite <- app_assoc. repeat split; auto.
          + intros E. apply app_eq_nil in E as [_ E]. discriminate.
          + apply Forall_app. split; [assumption | constructor; [exact Hc | constructor]].
        - exists pre. repeat split; auto; discriminate. }
      assert (Hstep : forall t,
                maximal_run (pre ++ c :: s) t /\ len pre + 1 <= tok_end t
                <-> maximal_run (pre ++ c :: s) t /\ len pre <= tok_end t).
      { intros u. split; intros [Hmr Hle]; (split; [assumption|]); [lia|].
        destruct (Z.eq_dec (tok_end u) (len pre)) as [Hend | Hend]; [| lia].
        exfalso.
        destruct (maximal_run_split _ _ _ Hmr Hend) as (_ & _ & _ & _ & _ & _ & [E | (c' & q & E & Hc')]).
        - discriminate.
        - injection E as <- _. congruence. }
      rewrite <- Hstep, Htext, Hlen.
      destruct open as [[start w]|]; apply IH; exact Hok'.
Qed.

(** What the scanner yields is in left-to-right order, and no token is
    empty. *)
Lemma finditer_nonspace_sorted s :
  forall pos open,
    match open with Some (start, _) => start < pos | None => True end ->
    StronglySorted tok_before (finditer_nonspace s pos open)
    /\ Forall (fun t =>
                 match open with Some (start, _) => start | None => pos end
                 <= tok_start t < tok_end t)
         (finditer_nonspace s pos open).
Proof.
  induction s as [|c s IH]; intros pos open Hopen; simpl.
  - destruct open as [[start w]|].
    + split; repeat constructor; unfold tok_start, tok_end; simpl; lia.
    + split; constructor.
  - destruct (isspace c).
    + destruct (IH (pos + 1) None I) as [Hs Hf].
      destruct open as [[start w]|].
      * split.
        -- constructor; [assumption|].
           eapply Forall_impl; [| exact Hf].
           intros t Ht. cbv beta in Ht. unfold tok_before, tok_end at 1. simpl. lia.
        -- constructor; [unfold tok_start, tok_end; simpl; lia|].
           eapply Forall_impl; [| exact Hf]. simpl. intros t Ht. cbv beta in Ht. lia.
      * split; [assumption|].
        eapply Forall_impl; [| exact Hf]. simpl. intros t Ht. cbv beta in Ht. lia.
    + destruct open as [[start w]|].
      * destruct (IH (pos + 1) (Some (start, w ++ [c]))) as [Hs Hf]; [lia | auto].
      * destruct (IH (pos + 1) (Some (pos, [c]))) as [Hs Hf]; [lia | auto].
Qed.

Lemma finditer_nonspace_open s pos start w :
  finditer_nonspace s pos (Some (start, w)) <> [].
Proof.
  revert pos w. induction s as [|c s IH]; intros pos w; simpl.
  - discriminate.
  - destruct (isspace c); [discriminate | apply IH].
Qed.

(** Tokens in left-to-right order are pairwise distinct. *)
Lemma sorted_tokens_NoDup (l : list token) :
  StronglySorted tok_before l ->
  Forall (fun t => tok_start t < tok_end t) l ->
  NoDup l.
Proof.
  induction 1 as [|t l Hs IH Hall]; intros Hpos; constructor.
  - intros Hin. rewrite Forall_forall in Hall. specialize (Hall t Hin).
    inversion Hpos as [|? ? Ht _]; subst. unfold tok_before in Hall. lia.
  - apply IH. inversion Hpos; assumption.
Qed.

(** Nothing is yielded exactly when the input is all whitespace. *)
Lemma finditer_nonspace_nil s :
  forall pos, finditer_nonspace s pos None = [] <-> forallb isspace s = true.
Proof.
  induction s as [|c s IH]; intros pos; simpl.
  - tauto.
  - destruct (isspace c); simpl.
    + apply IH.
    + split; [| discriminate].
      intros H. exfalso. exact (finditer_nonspace_open _ _ _ _ H).
Qed.

(** ** The tokenizer *)

Lemma tokenize_In self text t : In t (tokenize self text) <-> maximal_run text t.
Proof.
  unfold tokenize.
  pose proof (finditer_nonspace_spec text [] None (or_introl eq_refl) t) as H.
  simpl in H. rewrite H. split; [tauto|].
  intros Hmr. split; [assumption|].
  destruct Hmr as (pre & post & _ & _ & _ & _ & _ & _ & ->).
  pose proof (len_nonneg pre). pose proof (len_nonneg (tok_word t)).
  change (len (@nil char)) with 0. lia.
Qed.

Lemma tokenize_slice self text t :
  In t (tokenize self text) -> tok_word t = slice text (tok_start t) (tok_end t).
Proof. intros H. apply maximal_run_slice, (tokenize_In self), H. Qed.

(** ** List and dictionary access *)

Section Access.
Context {A : Type}.
Implicit Types (l : list A) (i : Z).

Lemma getitem_valid l i :
  valid_index (len l) i -> exists x, getitem l i = inr x /\ In x l.
Proof.
  unfold valid_index, getitem. intros H.
  set (i' := if i <? 0 then i + len l else i).
  assert (Hi : 0 <= i' < len l) by (subst i'; destruct (Z.ltb_spec i 0); lia).
  destruct (Z.ltb_spec i' 0); [lia|]. destruct (Z.leb_spec (len l) i'); [lia|].
  simpl. destruct (nth_error l (Z.to_nat i')) as [x|] eqn:E.
  - exists x. split; [reflexivity | eapply nth_error_In; eassumption].
  - apply nth_error_None in E. unfold len in *. lia.
Qed.

Lemma getitem_in_range l i :
  in_range (len l) i -> exists x, getitem l i = inr x /\ nth_error l (Z.to_nat i) = Some x.
Proof.
  unfold in_range, getitem. intros H.
  destruct (Z.ltb_spec i 0); [lia|].
  destruct (Z.ltb_spec i 0); [lia|]. destruct (Z.leb_spec (len l) i); [lia|].
  simpl. destruct (nth_error l (Z.to_nat i)) as [x|] eqn:E.
  - exists x. auto.
  - apply nth_error_None in E. unfold len in *. lia.
Qed.

Lemma getitem_inr l i x : getitem l i = inr x -> In x l /\ valid_index (len l) i.
Proof.
  unfold getitem, valid_index.
  set (i' := if i <? 0 then i + len l else i).
  destruct (Z.ltb_spec i' 0); [discriminate|].
  destruct (Z.leb_spec (len l) i'); [discriminate|]. simpl.
  destruct (nth_error l (Z.to_nat i')) as [y|] eqn:E; [| discriminate].
  intros [= <-]. split; [eapply nth_error_In; eassumption|].
  subst i'. destruct (Z.ltb_spec i 0); lia.
Qed.

Lemma getitem_inl l i e :
  getitem l i = inl e ->
  e = IndexError "list index out of range" /\ ~ valid_index (len l) i.
Proof.
  intros H. split.
  - unfold getitem in H.
    destruct (_ || _); [congruence|].
    destruct (nth_error _ _); [discriminate | congruence].
  - intros Hv. destruct (getitem_valid l i Hv) as (x & E & _). congruence.
Qed.
End Access.

Lemma in_range_valid n i : in_range n i -> valid_index n i.
Proof. unfold in_range, valid_index. lia. Qed.

Lemma dict_get_None {V} (d : list (string * V)) k :
  dict_get d k = None <-> ~ In k (dict_keys d).
Proof.
  induction d as [|[k' v] d IH]; simpl.
  - tauto.
  - destruct (String.eqb_spec k' k) as [-> | Hne].
    + split; [discriminate | tauto].
    + rewrite IH. tauto.
Qed.

Lemma dict_get_Some_In {V} (d : list (string * V)) k v :
  dict_get d k = Some v -> In (k, v) d.
Proof.
  induction d as [|[k' v'] d IH]; simpl; [discriminate|].
  destruct (String.eqb_spec k' k) as [-> | Hne].
  - intros [= ->]. auto.
  - auto.
Qed.

(** ** The two loops *)

Lemma resolve_pair_inl st tt p e :
  resolve_pair st tt p = inl e -> e = IndexError "list index out of range".
Proof.
  unfold resolve_pair.
  destruct (getitem st (fst p)) eqn:E1.
  - intros [= <-]. apply (getitem_inl _ _ _ E1).
  - destruct (getitem tt (snd p)) eqn:E2; [| discriminate].
    intros [= <-]. apply (getitem_inl _ _ _ E2).
Qed.

Lemma resolve_pair_valid st tt p :
  valid_index (len st) (fst p) -> valid_index (len tt) (snd p) ->
  exists r, resolve_pair st tt p = inr r.
Proof.
  intros H1 H2. unfold resolve_pair.
  destruct (getitem_valid st _ H1) as (sw & -> & _).
  destruct (getitem_valid tt _ H2) as (tw & -> & _). eauto.
Qed.

Lemma pairs_loop_step st tt p rest acc :
  pairs_loop st tt (p :: rest) acc
  = match resolve_pair st tt p with
    | inl e => inl e
    | inr r => pairs_loop st tt rest (acc ++ [r])
    end.
Proof.
  destruct p as [i j]. unfold resolve_pair. simpl.
  destruct (getitem st i); [reflexivity|].
  destruct (getitem tt j); reflexivity.
Qed.

(** When the inner loop returns, it has appended one record per pair, in
    the order of the pairs. *)
Lemma pairs_loop_inr st tt pairs :
  forall acc out,
    pairs_loop st tt pairs acc = inr out ->
    exists recs,
      out = acc ++ recs
      /\ Forall2 (fun p r => resolve_pair st tt p = inr r) pairs recs.
Proof.
  induction pairs as [|p rest IH]; intros acc out H.
  - simpl in H. injection H as <-. exists []. rewrite app_nil_r. auto.
  - rewrite pairs_loop_step in H.
    destruct (resolve_pair st tt p) as [e|r] eqn:E; [discriminate|].
    destruct (IH _ _ H) as (recs & -> & HF).
    exists (r :: recs). rewrite <- app_assoc. auto.
Qed.

(** The inner loop raises nothing but [IndexError]. *)
Lemma pairs_loop_inl st tt pairs :
  forall acc e,
    pairs_loop st tt pairs acc = inl e ->
    e = IndexError "list index out of range"
    /\ Exists (fun p => ~ (valid_index (len st) (fst p) /\ valid_index (len tt) (snd p))) pairs.
Proof.
  induction pairs as [|p rest IH]; intros acc e H.
  - discriminate.
  - rewrite pairs_loop_step in H.
    destruct (resolve_pair st tt p) as [e'|r] eqn:E.
    + injection H as <-. split; [eapply resolve_pair_inl; eassumption|].
      left. intros [H1 H2].
      destruct (resolve_pair_valid st tt p H1 H2) as (r & Hr). congruence.
    + destruct (IH _ _ H) as [He Hex]. auto.
Qed.

(** With valid indices the inner loop returns. *)
Lemma pairs_loop_valid st tt pairs :
  Forall (fun p => valid_index (len st) (fst p) /\ valid_index (len tt) (snd p)) pairs ->
  forall acc, exists out, pairs_loop st tt pairs acc = inr out.
Proof.
  intros HF acc. destruct (pairs_loop st tt pairs acc) as [e|out] eqn:E; [| eauto].
  exfalso. apply pairs_loop_inl in E as [_ Hex].
  apply Exists_exists in Hex as (p & Hin & Hp).
  rewrite Forall_forall in HF. exact (Hp (HF p Hin)).
Qed.

(** The outer loop assembles the entry of the configured method, if any. *)
Lemma items_loop_dict_get m st tt d :
  items_loop m st tt d
  = match dict_get d m with
    | None => inr []
    | Some pairs => pairs_loop st tt pairs []
    end.
Proof.
  induction d as [|[k pairs] d IH]; simpl.
  - reflexivity.
  - destruct (String.eqb k m); simpl; [reflexivity | exact IH].
Qed.

(** ** The request *)

Lemma get_word_alignment_unfold self src tgt log :
  let st := tokenize self src in
  let tt := tokenize self tgt in
  get_word_alignment self src tgt log
  = if is_empty st || is_empty tt then
      (inl (ValueError "Source or target text is empty"), log)
    else
      match get_word_aligns (aligner self) (words st) (words tt) with
      | inl r => (inl (AlignerError r), log ++ [(words st, words tt)])
      | inr d => (items_loop (method self) st tt d, log ++ [(words st, words tt)])
      end.
Proof.
  intros st tt.
  unfold get_word_alignment, bind, raise, lift, call_get_word_aligns.
  fold st tt. fold (words st) (words tt).
  replace (len (words st) =? 0) with (is_empty st)
    by (unfold words; destruct st; reflexivity).
  replace (len (words tt) =? 0) with (is_empty tt)
    by (unfold words; destruct tt; reflexivity).
  destruct (is_empty st || is_empty tt); [reflexivity|].
  destruct (get_word_aligns _ _ _); reflexivity.
Qed.

Lemma is_empty_true {A} (l : list A) : is_empty l = true <-> l = [].
Proof. destruct l; simpl; split; congruence. Qed.

(** ** Properties of the tokenizer *)

(** C3: [tokenize] returns exactly the maximal runs of non-whitespace
    characters of the text: a token is yielded if and only if it is such a
    run with the run's own positions as offsets; the tokens come in
    left-to-right order, each ending before the next starts; none is
    yielded twice; and the result is empty exactly when the text is empty
    or all whitespace. *)
Theorem tokenize_maximal_runs (self : WordAligner) (text : str) :
  (forall t, In t (tokenize self text) <-> maximal_run text t)
  /\ StronglySorted tok_before (tokenize self text)
  /\ NoDup (tokenize self text)
  /\ (tokenize self text = [] <-> forallb isspace text = true).
Proof.
  destruct (finditer_nonspace_sorted text 0 None I) as [Hsorted Hpos].
  split; [| split; [| split]].
  - intros t. apply tokenize_In.
  - exact Hsorted.
  - apply sorted_tokens_NoDup; [exact Hsorted|].
    eapply Forall_impl; [| exact Hpos]. intros t Ht. cbv beta in Ht. lia.
  - apply finditer_nonspace_nil.
Qed.

(** The words the scanner yields, put end to end. *)
Lemma finditer_nonspace_concat s :
  forall pos open,
    concat (map tok_word (finditer_nonspace s pos open))
    = match open with Some (_, w) => w | None => [] end ++ filter nonspaceb s.
Proof.
  induction s as [|c s IH]; intros pos open; simpl.
  - destruct open as [[start w]|]; simpl; [rewrite !app_nil_r|]; reflexivity.
  - unfold nonspaceb at 1. destruct (isspace c); simpl.
    + destruct open as [[start w]|]; simpl; rewrite IH; reflexivity.
    + destruct open as [[start w]|]; rewrite IH; simpl.
      * rewrite <- app_assoc. reflexivity.
      * reflexivity.
Qed.

(** Two token lists in left-to-right order with the same members are the
    same list. *)
Lemma sorted_tokens_unique (l1 : list token) :
  forall l2,
    StronglySorted tok_before l1 -> StronglySorted tok_before l2 ->
    Forall (fun t => tok_start t < tok_end t) l1 ->
    Forall (fun t => tok_start t < tok_end t) l2 ->
    (forall t, In t l1 <-> In t l2) ->
    l1 = l2.
Proof.
  induction l1 as [|a l1 IH]; intros [|b l2] S1 S2 P1 P2 Hmem.
  - reflexivity.
  - exfalso. apply (proj2 (Hmem b)). left. reflexivity.
  - exfalso. apply (proj1 (Hmem a)). left. reflexivity.
  - apply StronglySorted_inv in S1 as [S1 A1].
    apply StronglySorted_inv in S2 as [S2 A2].
    rewrite Forall_forall in A1, A2.
    inversion P1 as [|? ? Pa P1']; subst. inversion P2 as [|? ? Pb P2']; subst.
    assert (Hab : a = b).
    { destruct (proj1 (Hmem a) (or_introl eq_refl)) as [E | Ha]; [auto|].
      destruct (proj2 (Hmem b) (or_introl eq_refl)) as [E | Hb]; [auto|].
      specialize (A1 b Hb). specialize (A2 a Ha). unfold tok_before in *. lia. }
    subst b. f_equal. apply IH; try assumption.
    intros t. split; intros Ht.
    + destruct (proj1 (Hmem t) (or_intror Ht)) as [E | Ht2]; [| exact Ht2].
      subst t. specialize (A1 a Ht). unfold tok_before in A1. lia.
    + destruct (proj2 (Hmem t) (or_intror Ht)) as [E | Ht1]; [| exact Ht1].
      subst t. specialize (A2 a Ht). unfold tok_before in A2. lia.
Qed.

Lemma maximal_run_positive text t : maximal_run text t -> tok_start t < tok_end t.
Proof.
  intros (pre & post & _ & Hne & _ & _ & _ & -> & ->).
  assert (0 < len (tok_word t)); [| lia].
  unfold len. destruct (tok_word t); [congruence | simpl; lia].
Qed.

(** C9: [tokenize] is a pure function of the text.  The instance it is
    called on does not matter, so two runs on the same string give the
    same tokens; and the text alone fixes the result: any list of the
    maximal runs of the text in left-to-right order is the list
    [tokenize] returns.  Nothing is normalised or stripped: every token's
    word is the raw slice of the text between its two offsets; the words
    put end to end are the text with only its whitespace removed; and
    every non-whitespace character of the text, punctuation included,
    occurs in the word of some token. *)
Theorem tokenize_pure_raw (self1 self2 : WordAligner) (text : str) :
  tokenize self1 text = tokenize self2 text
  /\ (forall l,
         (forall t, In t l <-> maximal_run text t) ->
         StronglySorted tok_before l ->
         tokenize self1 text = l)
  /\ Forall (fun t => tok_word t = slice text (tok_start t) (tok_end t)
                      /\ Forall nonspace (tok_word t))
       (tokenize self1 text)
  /\ concat (map tok_word (tokenize self1 text)) = filter nonspaceb text
  /\ (forall c,
         In c text -> isspace c = false ->
         exists t, In t (tokenize self1 text) /\ In c (tok_word t)).
Proof.
  assert (Hconcat : concat (map tok_word (tokenize self1 text)) = filter nonspaceb text)
    by (unfold tokenize; apply finditer_nonspace_concat).
  split; [reflexivity | split; [| split; [| split]]].
  - intros l Hmem Hsorted.
    destruct (finditer_nonspace_sorted text 0 None I) as [Hs Hpos].
    apply sorted_tokens_unique.
    + exact Hs.
    + exact Hsorted.
    + eapply Forall_impl; [| exact Hpos]. intros t Ht. cbv beta in Ht. lia.
    + apply Forall_forall. intros t Ht.
      apply (maximal_run_positive text), Hmem, Ht.
    + intros t. rewrite Hmem. apply tokenize_In.
  - apply Forall_forall. intros t Hin. split.
    + exact (tokenize_slice self1 text t Hin).
    + apply tokenize_In in Hin.
      destruct Hin as (_ & _ & _ & _ & Hw & _). exact Hw.
  - exact Hconcat.
  - intros c Hc Hns.
    assert (Hin : In c (filter nonspaceb text)).
    { apply filter_In. split; [exact Hc|]. unfold nonspaceb. rewrite Hns. reflexivity. }
    rewrite <- Hconcat in Hin. apply in_concat in Hin as (w & Hw & Hcw).
    apply in_map_iff in Hw as (t & <- & Ht). eauto.
Qed.

(** ** Properties of the assembler *)

(** C1: [get_word_alignment] raises [ValueError "Source or target text is
    empty"] if and only if one of the two texts has no token; in that case
    the call log is unchanged, so the aligner was not invoked; otherwise
    the aligner is invoked exactly once, with the two word lists. *)
Theorem get_word_alignment_empty_check (self : WordAligner) (src tgt : str)
    (log : call_log) :
  (fst (get_word_alignment self src tgt log)
     = inl (ValueError "Source or target text is empty")
   <-> tokenize self src = [] \/ tokenize self tgt = [])
  /\ (tokenize self src = [] \/ tokenize self tgt = [] ->
      snd (get_word_alignment self src tgt log) = log)
  /\ (~ (tokenize self src = [] \/ tokenize self tgt = []) ->
      snd (get_word_alignment self src tgt log)
      = log ++ [(words (tokenize self src), words (tokenize self tgt))]).
Proof.
  pose proof (get_word_alignment_unfold self src tgt log) as E. cbv zeta in E.
  rewrite E. clear E.
  destruct (is_empty (tokenize self src) || is_empty (tokenize self tgt)) eqn:B.
  - assert (Hempty : tokenize self src = [] \/ tokenize self tgt = []).
    { apply orb_true_iff in B. rewrite !is_empty_true in B. exact B. }
    simpl. tauto.
  - assert (Hne : ~ (tokenize self src = [] \/ tokenize self tgt = [])).
    { rewrite <- !is_empty_true, <- orb_true_iff, B. discriminate. }
    split; [| split].
    + split; [| tauto]. intros H. exfalso.
      destruct (get_word_aligns _ _ _) as [descr|d]; simpl in H; [discriminate|].
      rewrite items_loop_dict_get in H.
      destruct (dict_get d (method self)) as [pairs|]; [| discriminate].
      apply pairs_loop_inl in H as [H _]. discriminate.
    + tauto.
    + intros _. destruct (get_word_aligns _ _ _); reflexivity.
Qed.

(** What a successful request returns: the entry of the configured method,
    resolved pair by pair. *)
Lemma get_word_alignment_inr self src tgt log recs log' :
  get_word_alignment self src tgt log = (inr recs, log') ->
  exists d,
    get_word_aligns (aligner self) (words (tokenize self src)) (words (tokenize self tgt))
    = inr d
    /\ match dict_get d (method self) with
       | None => recs = []
       | Some pairs =>
           Forall2 (fun p r => resolve_pair (tokenize self src) (tokenize self tgt) p = inr r)
             pairs recs
       end.
Proof.
  pose proof (get_word_alignment_unfold self src tgt log) as E. cbv zeta in E.
  rewrite E. clear E.
  destruct (_ || _); [discriminate|].
  destruct (get_word_aligns _ _ _) as [descr|d]; [discriminate|].
  intros [= H _]. exists d. split; [reflexivity|].
  rewrite items_loop_dict_get in H.
  destruct (dict_get d (method self)) as [pairs|].
  - apply pairs_loop_inr in H as (rs & -> & HF). exact HF.
  - congruence.
Qed.

(** What a request returns once the aligner has answered. *)
Lemma get_word_alignment_answered self src tgt log d :
  tokenize self src <> [] -> tokenize self tgt <> [] ->
  get_word_aligns (aligner self) (words (tokenize self src)) (words (tokenize self tgt))
  = inr d ->
  fst (get_word_alignment self src tgt log)
  = match dict_get d (method self) with
    | None => inr []
    | Some pairs => pairs_loop (tokenize self src) (tokenize self tgt) pairs []
    end.
Proof.
  intros H1 H2 Hd.
  pose proof (get_word_alignment_unfold self src tgt log) as E. cbv zeta in E.
  rewrite E, Hd. clear E.
  destruct (tokenize self src); [congruence|].
  destruct (tokenize self tgt); [congruence|].
  simpl. apply items_loop_dict_get.
Qed.

Lemma resolve_pair_round_trip self src tgt p r :
  resolve_pair (tokenize self src) (tokenize self tgt) p = inr r ->
  round_trip src tgt r.
Proof.
  unfold resolve_pair.
  destruct (getitem _ (fst p)) as [|sw] eqn:E1; [discriminate|].
  destruct (getitem _ (snd p)) as [|tw] eqn:E2; [discriminate|].
  intros [= <-].
  apply getitem_inr in E1 as [I1 _]. apply getitem_inr in E2 as [I2 _].
  split; simpl.
  - exact (tokenize_slice self src sw I1).
  - exact (tokenize_slice self tgt tw I2).
Qed.

(** C2: round trip.  In every record [get_word_alignment] returns, the
    source word is the slice of the source text at the record's source
    span, and the target word is the slice of the target text at its
    target span. *)
Theorem alignment_round_trip (self : WordAligner) (src tgt : str)
    (log log' : call_log) (recs : list AlignmentResult) :
  get_word_alignment self src tgt log = (inr recs, log') ->
  Forall (round_trip src tgt) recs.
Proof.
  intros H. apply get_word_alignment_inr in H as (d & _ & H).
  destruct (dict_get d (method self)) as [pairs|].
  - induction H as [|p r pairs recs Hp _ IH]; constructor.
    + exact (resolve_pair_round_trip self src tgt p r Hp).
    + exact IH.
  - subst. constructor.
Qed.

Lemma alignment_round_trip_witness :
  Forall (round_trip (of_string "the cat") (of_string " le chat"))
    [ {| src_word := of_string "the"; target_word := of_string "le";
         src_indexes := (0, 3); target_indexes := (1, 3) |};
      {| src_word := of_string "cat"; target_word := of_string "chat";
         src_indexes := (4, 7); target_indexes := (4, 8) |} ].
Proof.
  apply (alignment_round_trip demo_self (of_string "the cat") (of_string " le chat")
           [] [ ([of_string "the"; of_string "cat"], [of_string "le"; of_string "chat"]) ]).
  reflexivity.
Defined.

(** C4: when the mapping the aligner returns has no entry for the
    configured method, [get_word_alignment] returns the empty list and
    raises nothing. *)
Theorem method_mismatch_returns_empty (self : WordAligner) (src tgt : str)
    (log : call_log) (d : alignments) :
  tokenize self src <> [] -> tokenize self tgt <> [] ->
  get_word_aligns (aligner self) (words (tokenize self src)) (words (tokenize self tgt))
  = inr d ->
  ~ In (method self) (dict_keys d) ->
  fst (get_word_alignment self src tgt log) = inr [].
Proof.
  intros H1 H2 Hd Hk.
  rewrite (get_word_alignment_answered self src tgt log d H1 H2 Hd).
  apply dict_get_None in Hk. rewrite Hk. reflexivity.
Qed.

Lemma method_mismatch_returns_empty_witness :
  fst (get_word_alignment inter_self (of_string "the cat") (of_string " le chat") [])
  = inr [].
Proof.
  apply (method_mismatch_returns_empty inter_self (of_string "the cat")
           (of_string " le chat") [] [ ("inter"%string, [(0, 0)]) ]).
  - vm_compute. discriminate.
  - vm_compute. discriminate.
  - reflexivity.
  - simpl. intros [H | []]. discriminate H.
Defined.

(** C5: the assembler returns one record per pair of the configured
    method's entry, in the order of the pairs: whatever it returns has the
    length of the pair list and its k-th record is what the k-th pair
    resolves to; and it does return when every index is one the token
    tables accept. *)
Theorem assembler_one_record_per_pair (self : WordAligner) (src tgt : str)
    (log : call_log) (d : alignments) (pairs : list (Z * Z)) :
  tokenize self src <> [] -> tokenize self tgt <> [] ->
  get_word_aligns (aligner self) (words (tokenize self src)) (words (tokenize self tgt))
  = inr d ->
  dict_get d (method self) = Some pairs ->
  (forall recs,
      fst (get_word_alignment self src tgt log) = inr recs ->
      length recs = length pairs
      /\ Forall2 (fun p r => resolve_pair (tokenize self src) (tokenize self tgt) p = inr r)
           pairs recs)
  /\ (Forall (fun p => valid_index (len (tokenize self src)) (fst p)
                       /\ valid_index (len (tokenize self tgt)) (snd p)) pairs ->
      exists recs, fst (get_word_alignment self src tgt log) = inr recs).
Proof.
  intros H1 H2 Hd Hp.
  rewrite (get_word_alignment_answered self src tgt log d H1 H2 Hd), Hp.
  split.
  - intros recs H. apply pairs_loop_inr in H as (rs & -> & HF). simpl.
    split; [| exact HF]. symmetry. exact (Forall2_length HF).
  - intros HF. apply pairs_loop_valid. exact HF.
Qed.

Lemma assembler_one_record_per_pair_witness :
  (forall recs,
      fst (get_word_alignment demo_self (of_string "the cat") (of_string " le chat") [])
      = inr recs ->
      length recs = length [(0, 0); (1, 1)]
      /\ Forall2 (fun p r =>
                    resolve_pair (tokenize demo_self (of_string "the cat"))
                      (tokenize demo_self (of_string " le chat")) p = inr r)
           [(0, 0); (1, 1)] recs)
  /\ (Forall (fun p =>
                valid_index (len (tokenize demo_self (of_string "the cat"))) (fst p)
                /\ valid_index (len (tokenize demo_self (of_string " le chat"))) (snd p))
        [(0, 0); (1, 1)] ->
      exists recs,
        fst (get_word_alignment demo_self (of_string "the cat") (of_string " le chat") [])
        = inr recs).
Proof.
  apply (assembler_one_record_per_pair demo_self (of_string "the cat")
           (of_string " le chat") [] [ ("mwmf"%string, [(0, 0); (1, 1)]) ]).
  - vm_compute. discriminate.
  - vm_compute. discriminate.
  - reflexivity.
  - reflexivity.
Defined.

(** C6: when every pair the aligner gives for the configured method lies
    within [0 .. S-1] and [0 .. T-1], each lookup [src_tokens[i]] and
    [target_tokens[j]] succeeds and yields the token at that position, and
    the request does not end in [IndexError]. *)
Theorem in_range_pairs_never_raise (self : WordAligner) (src tgt : str)
    (log : call_log) :
  (forall d pairs,
      get_word_aligns (aligner self) (words (tokenize self src)) (words (tokenize self tgt))
      = inr d ->
      dict_get d (method self) = Some pairs ->
      Forall (fun p => in_range (len (tokenize self src)) (fst p)
                       /\ in_range (len (tokenize self tgt)) (snd p)) pairs) ->
  (forall d pairs,
      get_word_aligns (aligner self) (words (tokenize self src)) (words (tokenize self tgt))
      = inr d ->
      dict_get d (method self) = Some pairs ->
      Forall (fun p =>
                exists sw tw,
                  getitem (tokenize self src) (fst p) = inr sw
                  /\ nth_error (tokenize self src) (Z.to_nat (fst p)) = Some sw
                  /\ getitem (tokenize self tgt) (snd p) = inr tw
                  /\ nth_error (tokenize self tgt) (Z.to_nat (snd p)) = Some tw) pairs)
  /\ (forall msg, fst (get_word_alignment self src tgt log) <> inl (IndexError msg)).
Proof.
  intros Hrange. split.
  - intros d pairs Hd Hp. specialize (Hrange d pairs Hd Hp).
    eapply Forall_impl; [| exact Hrange].
    intros p [Hi Hj].
    destruct (getitem_in_range _ _ Hi) as (sw & ? & ?).
    destruct (getitem_in_range _ _ Hj) as (tw & ? & ?).
    exists sw, tw. auto.
  - intros msg.
    pose proof (get_word_alignment_unfold self src tgt log) as E. cbv zeta in E.
    rewrite E. clear E.
    destruct (_ || _); [discriminate|].
    destruct (get_word_aligns _ _ _) as [descr|d] eqn:Hd; [discriminate|].
    simpl. rewrite items_loop_dict_get.
    destruct (dict_get d (method self)) as [pairs|] eqn:Hp; [| discriminate].
    specialize (Hrange d pairs eq_refl Hp).
    assert (HV : Forall (fun p => valid_index (len (tokenize self src)) (fst p)
                                  /\ valid_index (len (tokenize self tgt)) (snd p)) pairs).
    { eapply Forall_impl; [| exact Hrange].
      intros p [Hi Hj]. split; apply in_range_valid; assumption. }
    destruct (pairs_loop_valid _ _ pairs HV []) as (out & ->). discriminate.
Qed.

Lemma in_range_pairs_never_raise_witness :
  (forall d pairs,
      get_word_aligns (aligner demo_self)
        (words (tokenize demo_self (of_string "the cat")))
        (words (tokenize demo_self (of_string " le chat"))) = inr d ->
      dict_get d (method demo_self) = Some pairs ->
      Forall (fun p =>
                exists sw tw,
                  getitem (tokenize demo_self (of_string "the cat")) (fst p) = inr sw
                  /\ nth_error (tokenize demo_self (of_string "the cat")) (Z.to_nat (fst p))
                     = Some sw
                  /\ getitem (tokenize demo_self (of_string " le chat")) (snd p) = inr tw
                  /\ nth_error (tokenize demo_self (of_string " le chat")) (Z.to_nat (snd p))
                     = Some tw) pairs)
  /\ (forall msg,
         fst (get_word_alignment demo_self (of_string "the cat") (of_string " le chat") [])
         <> inl (IndexError msg)).
Proof.
  apply (in_range_pairs_never_raise demo_self (of_string "the cat") (of_string " le chat") []).
  intros d pairs Hd Hp.
  injection Hd as <-. injection Hp as <-.
  repeat first [apply Forall_cons | apply Forall_nil];
    split; unfold in_range, len; simpl; lia.
Defined.

(** ** Properties of the construction *)

(** C7: a matching-method key outside ["a"], ["m"], ["i"], ["f"], ["r"]
    makes the construction fail, whatever the external constructor does;
    every instance that was constructed holds the method name of a
    recognised key; and no request ends in [KeyError], the error of an
    unrecognised key. *)
Theorem unknown_method_fails_at_construction
    (SentenceAligner_new : string -> string -> string -> string + SentenceAligner) :
  (forall k,
      ~ In k (dict_keys all_matching_methods) ->
      exists e, WordAligner_init SentenceAligner_new (Some k) = inl e)
  /\ (forall matching_method self,
         WordAligner_init SentenceAligner_new matching_method = inr self ->
         exists k, In (k, method self) all_matching_methods)
  /\ (forall self src tgt log key,
         fst (get_word_alignment self src tgt log) <> inl (KeyError key)).
Proof.
  split; [| split].
  - intros k Hk. unfold WordAligner_init.
    destruct (SentenceAligner_new _ _ k) as [descr|a]; [eauto|].
    apply dict_get_None in Hk. rewrite Hk. eauto.
  - intros mm self. unfold WordAligner_init.
    set (k := match mm with Some k => k | None => "m"%string end).
    destruct (SentenceAligner_new _ _ k) as [descr|a]; [discriminate|].
    destruct (dict_get all_matching_methods k) as [v|] eqn:E; [| discriminate].
    intros [= <-]. exists k. exact (dict_get_Some_In _ _ _ E).
  - intros self src tgt log key.
    pose proof (get_word_alignment_unfold self src tgt log) as E. cbv zeta in E.
    rewrite E. clear E.
    destruct (_ || _); [discriminate|].
    destruct (get_word_aligns _ _ _) as [descr|d]; [discriminate|].
    simpl. rewrite items_loop_dict_get.
    destruct (dict_get d (method self)) as [pairs|]; [| discriminate].
    intros H. apply pairs_loop_inl in H as [H _]. discriminate.
Qed.



(** ** The forward matching method *)

Lemma Qltb_true x y : Matcher.Qltb x y = true <-> (x < y)%Q.
Proof.
  unfold Matcher.Qltb. rewrite Qlt_alt.
  destruct (x ?= y)%Q; split; congruence.
Qed.

Lemma Qltb_false x y : Matcher.Qltb x y = false <-> (y <= x)%Q.
Proof.
  rewrite <- not_true_iff_false, Qltb_true. split.
  - apply Qnot_lt_le.
  - apply Qle_not_lt.
Qed.

(** The scan keeps the first largest score: given that [best] at [best_j]
    is the lowest argmax of the scanned prefix, the result is the lowest
    argmax of the whole row. *)
Lemma argmax_from_spec rest :
  forall pre best_j best,
    Matcher.lowest_argmax pre best_j ->
    nth_error pre best_j = Some best ->
    Matcher.lowest_argmax (pre ++ rest)
      (Matcher.argmax_from rest (length pre) best_j best).
Proof.
  induction rest as [|x rest IH]; intros pre best_j best Hlow Hbest; simpl.
  - rewrite app_nil_r. exact Hlow.
  - destruct Hlow as (b & Hb & Hmax & Hfirst).
    assert (b = best) by congruence. subst b.
    assert (Hlt : (best_j < length pre)%nat)
      by (apply nth_error_Some; congruence).
    replace (pre ++ x :: rest) with ((pre ++ [x]) ++ rest)
      by (rewrite <- app_assoc; reflexivity).
    replace (S (length pre)) with (length (pre ++ [x]))
      by (rewrite length_app; simpl; lia).
    assert (Hsplit : forall k y,
               nth_error (pre ++ [x]) k = Some y ->
               ((k < length pre)%nat /\ nth_error pre k = Some y)
               \/ (k = length pre /\ y = x)).
    { intros k y Hk. destruct (Nat.lt_ge_cases k (length pre)) as [Hkl | Hkl].
      - left. rewrite nth_error_app1 in Hk by assumption. auto.
      - right. rewrite nth_error_app2 in Hk by assumption.
        destruct (k - length pre)%nat as [|n] eqn:En; simpl in Hk.
        + split; [lia | congruence].
        + destruct n; discriminate. }
    destruct (Matcher.Qltb best x) eqn:Hcmp.
    + apply Qltb_true in Hcmp. apply IH.
      * exists x. split; [| split].
        -- rewrite nth_error_app2, Nat.sub_diag by lia. reflexivity.
        -- intros k y Hk. destruct (Hsplit k y Hk) as [[_ Hy] | [_ ->]].
           ++ apply Qlt_le_weak. eapply Qle_lt_trans; [exact (Hmax k y Hy) | exact Hcmp].
           ++ apply Qle_refl.
        -- intros k y Hk Hkj. destruct (Hsplit k y Hk) as [[_ Hy] | [-> _]]; [| lia].
           eapply Qle_lt_trans; [exact (Hmax k y Hy) | exact Hcmp].
      * rewrite nth_error_app2, Nat.sub_diag by lia. reflexivity.
    + apply Qltb_false in Hcmp. apply IH.
      * exists best. split; [| split].
        -- rewrite nth_error_app1 by assumption. exact Hbest.
        -- intros k y Hk. destruct (Hsplit k y Hk) as [[_ Hy] | [_ ->]].
           ++ exact (Hmax k y Hy).
           ++ exact Hcmp.
        -- intros k y Hk Hkj. destruct (Hsplit k y Hk) as [[_ Hy] | [-> _]]; [| lia].
           exact (Hfirst k y Hy Hkj).
      * rewrite nth_error_app1 by assumption. exact Hbest.
Qed.

Lemma argmax_spec row : row <> [] -> Matcher.lowest_argmax row (Matcher.argmax row).
Proof.
  destruct row as [|x rest]; [congruence|]. intros _.
  apply (argmax_from_spec rest [x] 0%nat x); [| reflexivity].
  exists x. split; [reflexivity | split].
  - intros [|[|k]] y Hk; simpl in Hk; try discriminate.
    injection Hk as <-. apply Qle_refl.
  - intros k y _ Hk. lia.
Qed.

Lemma forward_from_length matrix : forall i,
  length (Matcher.forward_from i matrix) = length matrix.
Proof. induction matrix; intros i; simpl; auto. Qed.

Lemma forward_from_sources matrix : forall i,
  map fst (Matcher.forward_from i matrix) = map Z.of_nat (seq i (length matrix)).
Proof. induction matrix as [|row rest IH]; intros i; simpl; [| rewrite IH]; reflexivity. Qed.

Lemma forward_from_nth matrix : forall i0 i row,
  nth_error matrix i = Some row ->
  nth_error (Matcher.forward_from i0 matrix) i
  = Some (Z.of_nat (i0 + i), Z.of_nat (Matcher.argmax row)).
Proof.
  induction matrix as [|r rest IH]; intros i0 [|i] row H; try discriminate.
  - injection H as <-. rewrite Nat.add_0_r. reflexivity.
  - cbn [Matcher.forward_from nth_error] in *.
    rewrite (IH (S i0) i row H).
    replace (S i0 + i)%nat with (i0 + S i)%nat by lia. reflexivity.
Qed.

(** C8: on a matrix of S rows and T columns, S and T at least 1, the
    forward method gives S pairs, one per source index in increasing
    order, and the pair of source index i is (i, j) where j is a column of
    row i holding its largest score, the lowest such column. *)
Theorem forward_one_pair_per_source (matrix : list (list Q)) (T : nat) :
  matrix <> [] -> (0 < T)%nat ->
  Forall (fun row => length row = T) matrix ->
  length (Matcher.forward matrix) = length matrix
  /\ map fst (Matcher.forward matrix) = map Z.of_nat (seq 0 (length matrix))
  /\ (forall i row,
         nth_error matrix i = Some row ->
         exists j,
           nth_error (Matcher.forward matrix) i = Some (Z.of_nat i, Z.of_nat j)
           /\ (j < T)%nat
           /\ Matcher.lowest_argmax row j).
Proof.
  intros _ HT Hrows. unfold Matcher.forward. split; [| split].
  - apply forward_from_length.
  - apply forward_from_sources.
  - intros i row Hrow. exists (Matcher.argmax row).
    assert (Hlen : length row = T).
    { rewrite Forall_forall in Hrows. apply Hrows. eapply nth_error_In; eassumption. }
    assert (Hne : row <> []) by (intros ->; simpl in Hlen; lia).
    pose proof (argmax_spec row Hne) as Hlow.
    split; [| split].
    + exact (forward_from_nth matrix 0 i row Hrow).
    + destruct Hlow as (x & Hx & _). rewrite <- Hlen.
      apply nth_error_Some. congruence.
    + exact Hlow.
Qed.

Lemma forward_one_pair_per_source_witness :
  length (Matcher.forward Matcher.cat_sat_matrix) = length Matcher.cat_sat_matrix
  /\ map fst (Matcher.forward Matcher.cat_sat_matrix)
     = map Z.of_nat (seq 0 (length Matcher.cat_sat_matrix))
  /\ (forall i row,
         nth_error Matcher.cat_sat_matrix i = Some row ->
         exists j,
           nth_error (Matcher.forward Matcher.cat_sat_matrix) i
           = Some (Z.of_nat i, Z.of_nat j)
           /\ (j < 2)%nat
           /\ Matcher.lowest_argmax row j).
Proof.
  apply (forward_one_pair_per_source Matcher.cat_sat_matrix 2).
  - discriminate.
  - lia.
  - repeat constructor.
Defined.

Example forward_cat_sat : Matcher.forward Matcher.cat_sat_matrix = [(0, 0); (1, 1)].
Proof. reflexivity. Qed.

Example forward_tie : Matcher.forward Matcher.tie_matrix = [(0, 0)].
Proof. reflexivity. Qed.

(** ** Further properties of the tokenizer *)

Lemma len_cons {A} (x : A) (l : list A) : len (x :: l) = len l + 1.
Proof. unfold len. simpl length. lia. Qed.

Lemma words_concat self text :
  concat (words (tokenize self text)) = filter nonspaceb text.
Proof. unfold words, tokenize. apply finditer_nonspace_concat. Qed.

(** X1: the words of the tokens, put end to end, are the text with its
    whitespace removed: tokenizing loses no other character, adds none and
    keeps their order. *)
Theorem tokenize_words_concat (self : WordAligner) (text : str) :
  concat (map tok_word (tokenize self text)) = filter nonspaceb text.
Proof. unfold tokenize. apply finditer_nonspace_concat. Qed.

Lemma finditer_nonspace_shift k s :
  forall pos open,
    finditer_nonspace s (pos + k) (shift_open k open)
    = map (shift_token k) (finditer_nonspace s pos open).
Proof.
  induction s as [|c s IH]; intros pos open; simpl.
  - destruct open as [[start w]|]; reflexivity.
  - replace (pos + k + 1) with (pos + 1 + k) by lia.
    destruct (isspace c).
    + destruct open as [[start w]|]; simpl.
      * rewrite <- (IH (pos + 1) None). reflexivity.
      * apply (IH (pos + 1) None).
    + destruct open as [[start w]|].
      * apply (IH (pos + 1) (Some (start, w ++ [c]))).
      * apply (IH (pos + 1) (Some (pos, [c]))).
Qed.

Lemma finditer_nonspace_app_space a c b :
  isspace c = true ->
  forall pos open,
    finditer_nonspace (a ++ c :: b) pos open
    = finditer_nonspace a pos open ++ finditer_nonspace b (pos + len a + 1) None.
Proof.
  intros Hc. induction a as [|x a IH]; intros pos open.
  - simpl. rewrite Hc. change (len (@nil char)) with 0. rewrite Z.add_0_r.
    destruct open as [[start w]|]; reflexivity.
  - assert (E : forall q, q + 1 + len a + 1 = q + len (x :: a) + 1)
      by (intros q; unfold len; simpl length; lia).
    simpl. destruct (isspace x).
    + destruct open as [[start w]|]; rewrite IH, E; reflexivity.
    + destruct open as [[start w]|]; rewrite IH, E; reflexivity.
Qed.

(** X2: tokenizing composes over whitespace.  The tokens of two texts
    joined by a whitespace character are the tokens of the first followed
    by the tokens of the second, the latter moved right by the length of
    the first text plus one. *)
Theorem tokenize_app_space (self : WordAligner) (a b : str) (c : char) :
  isspace c = true ->
  tokenize self (a ++ c :: b)
  = tokenize self a ++ map (shift_token (len a + 1)) (tokenize self b).
Proof.
  intros Hc. unfold tokenize.
  rewrite (finditer_nonspace_app_space a c b Hc 0 None). f_equal.
  rewrite <- (finditer_nonspace_shift (len a + 1) b 0 None). reflexivity.
Qed.

Lemma tokenize_app_space_witness :
  tokenize demo_self (of_string "the cat" ++ 32%N :: of_string "sat")
  = tokenize demo_self (of_string "the cat")
    ++ map (shift_token (len (of_string "the cat") + 1))
         (tokenize demo_self (of_string "sat")).
Proof.
  apply (tokenize_app_space demo_self (of_string "the cat") (of_string "sat") 32%N).
  reflexivity.
Defined.

Lemma finditer_nonspace_run s :
  Forall nonspace s ->
  forall pos start w,
    finditer_nonspace s pos (Some (start, w)) = [(w ++ s, start, pos + len s)].
Proof.
  induction 1 as [|c s Hc _ IH]; intros pos start w; simpl.
  - rewrite app_nil_r. change (len (@nil char)) with 0. rewrite Z.add_0_r. reflexivity.
  - unfold nonspace in Hc. rewrite Hc, IH, <- app_assoc. simpl.
    replace (pos + len (c :: s)) with (pos + 1 + len s)
      by (unfold len; simpl length; lia).
    reflexivity.
Qed.

Lemma tokenize_clean_word self w :
  clean_word w -> tokenize self w = [(w, 0, len w)].
Proof.
  intros [Hne Hw]. destruct w as [|c w]; [congruence|].
  unfold tokenize. simpl. inversion Hw as [|? ? Hc Hw']; subst.
  unfold nonspace in Hc. rewrite Hc, (finditer_nonspace_run w Hw').
  replace (len (c :: w)) with (0 + 1 + len w) by (unfold len; simpl length; lia).
  reflexivity.
Qed.

Lemma tokenize_In_clean self text t :
  In t (tokenize self text) -> clean_word (tok_word t).
Proof.
  intros H. apply tokenize_In in H.
  destruct H as (_ & _ & _ & Hne & Hw & _). split; assumption.
Qed.

(** X3: every word the tokenizer yields is a fixed point of it: tokenized
    on its own, the word comes back as the single token that spans it. *)
Theorem tokenize_word_again (self : WordAligner) (text : str) :
  Forall (fun t => tokenize self (tok_word t) = [(tok_word t, 0, len (tok_word t))])
    (tokenize self text).
Proof.
  apply Forall_forall. intros t Hin.
  apply tokenize_clean_word, (tokenize_In_clean self text), Hin.
Qed.

Lemma tokenize_span_ok self text t :
  In t (tokenize self text) -> span_ok text (tok_word t) (tok_span t).
Proof.
  intros H. apply tokenize_In in H.
  destruct H as (pre & post & E & Hne & _ & _ & _ & Hs & He).
  unfold span_ok, tok_span. simpl. fold (tok_start t) (tok_end t).
  rewrite E, Hs, He, !len_app.
  pose proof (len_nonneg pre). pose proof (len_nonneg post).
  assert (0 < len (tok_word t)).
  { unfold len. destruct (tok_word t); [congruence | simpl; lia]. }
  lia.
Qed.

(** X4: every token's span is non-empty, lies within the text, and is as
    long as the token's word. *)
Theorem tokenize_spans_in_bounds (self : WordAligner) (text : str) :
  Forall (fun t => span_ok text (tok_word t) (tok_span t)) (tokenize self text).
Proof. apply Forall_forall. intros t. apply tokenize_span_ok. Qed.

Lemma finditer_nonspace_count s :
  forall pos open,
    2 * len (finditer_nonspace s pos open)
    <= len s + match open with Some _ => 2 | None => 1 end.
Proof.
  induction s as [|c s IH]; intros pos open; cbn [finditer_nonspace].
  - destruct open as [[start w]|]; unfold len; simpl; lia.
  - rewrite len_cons. destruct (isspace c).
    + pose proof (IH (pos + 1) None) as H. cbv beta iota in H.
      destruct open as [[start w]|]; rewrite ?len_cons; lia.
    + destruct open as [[start w]|].
      * pose proof (IH (pos + 1) (Some (start, w ++ [c]))) as H. cbv beta iota in H. lia.
      * pose proof (IH (pos + 1) (Some (pos, [c]))) as H. cbv beta iota in H. lia.
Qed.

(** X5: a text of n characters has at most (n + 1) / 2 tokens, since two
    tokens are always separated by whitespace. *)
Theorem tokenize_count_bound (self : WordAligner) (text : str) :
  2 * len (tokenize self text) <= len text + 1.
Proof. apply (finditer_nonspace_count text 0 None). Qed.

(** ** Further properties of the assembler *)





Lemma words_clean self text : Forall clean_word (words (tokenize self text)).
Proof.
  unfold words. apply Forall_forall. intros w Hin.
  apply in_map_iff in Hin as (t & <- & Ht).
  exact (tokenize_In_clean self text t Ht).
Qed.

(** X7: a request calls the aligner at most once, and when it does, both
    word lists are non-empty, every word in them is non-empty and free of
    whitespace, and each list put end to end is its text without the
    whitespace. *)
Theorem aligner_receives_clean_words (self : WordAligner) (src tgt : str)
    (log : call_log) :
  snd (get_word_alignment self src tgt log) = log
  \/ exists s t,
       snd (get_word_alignment self src tgt log) = log ++ [(s, t)]
       /\ s <> [] /\ t <> []
       /\ Forall clean_word s /\ Forall clean_word t
       /\ concat s = filter nonspaceb src /\ concat t = filter nonspaceb tgt.
Proof.
  pose proof (get_word_alignment_unfold self src tgt log) as E. cbv zeta in E.
  rewrite E. clear E.
  destruct (is_empty (tokenize self src) || is_empty (tokenize self tgt)) eqn:B.
  - left. reflexivity.
  - right. apply orb_false_iff in B as [B1 B2].
    exists (words (tokenize self src)), (words (tokenize self tgt)).
    split; [destruct (get_word_aligns _ _ _); reflexivity|].
    split; [unfold words; destruct (tokenize self src); [discriminate B1 | discriminate]|].
    split; [unfold words; destruct (tokenize self tgt); [discriminate B2 | discriminate]|].
    split; [apply words_clean|]. split; [apply words_clean|].
    split; apply words_concat.
Qed.

Lemma resolve_pair_span_ok self src tgt p r :
  resolve_pair (tokenize self src) (tokenize self tgt) p = inr r ->
  span_ok src (src_word r) (src_indexes r)
  /\ span_ok tgt (target_word r) (target_indexes r).
Proof.
  unfold resolve_pair.
  destruct (getitem _ (fst p)) as [|sw] eqn:E1; [discriminate|].
  destruct (getitem _ (snd p)) as [|tw] eqn:E2; [discriminate|].
  intros [= <-].
  apply getitem_inr in E1 as [I1 _]. apply getitem_inr in E2 as [I2 _].
  split; simpl.
  - exact (tokenize_span_ok self src sw I1).
  - exact (tokenize_span_ok self tgt tw I2).
Qed.

(** X8: in every record a request returns, both spans are non-empty, lie
    within their text and are as long as their word, so a caller can use
    them to index the texts it sent. *)
Theorem alignment_spans_in_bounds (self : WordAligner) (src tgt : str)
    (log log' : call_log) (recs : list AlignmentResult) :
  get_word_alignment self src tgt log = (inr recs, log') ->
  Forall (fun r => span_ok src (src_word r) (src_indexes r)
                   /\ span_ok tgt (target_word r) (target_indexes r)) recs.
Proof.
  intros H. apply get_word_alignment_inr in H as (d & _ & H).
  destruct (dict_get d (method self)) as [pairs|].
  - induction H as [|p r pairs recs Hp _ IH]; constructor.
    + exact (resolve_pair_span_ok self src tgt p r Hp).
    + exact IH.
  - subst. constructor.
Qed.

Lemma alignment_spans_in_bounds_witness :
  Forall (fun r => span_ok (of_string "the cat") (src_word r) (src_indexes r)
                   /\ span_ok (of_string " le chat") (target_word r) (target_indexes r))
    [ {| src_word := of_string "the"; target_word := of_string "le";
         src_indexes := (0, 3); target_indexes := (1, 3) |};
      {| src_word := of_string "cat"; target_word := of_string "chat";
         src_indexes := (4, 7); target_indexes := (4, 8) |} ].
Proof.
  apply (alignment_spans_in_bounds demo_self (of_string "the cat") (of_string " le chat")
           [] [ ([of_string "the"; of_string "cat"], [of_string "le"; of_string "chat"]) ]).
  reflexivity.
Defined.

(** ** The outcomes of a request *)

Lemma tokenize_nil_blank self text : tokenize self text = [] <-> blank text.
Proof. unfold tokenize, blank. apply finditer_nonspace_nil. Qed.

Lemma get_word_alignment_outcome self src tgt log :
  outcome self src tgt log (get_word_alignment self src tgt log).
Proof.
  pose proof (get_word_alignment_unfold self src tgt log) as E. cbv zeta in E.
  rewrite E. clear E.
  destruct (is_empty (tokenize self src) || is_empty (tokenize self tgt)) eqn:B.
  - apply outcome_blank.
    apply orb_true_iff in B. rewrite !is_empty_true, !tokenize_nil_blank in B. exact B.
  - apply orb_false_iff in B as [B1 B2].
    assert (N1 : ~ blank src).
    { rewrite <- (tokenize_nil_blank self), <- is_empty_true, B1. discriminate. }
    assert (N2 : ~ blank tgt).
    { rewrite <- (tokenize_nil_blank self), <- is_empty_true, B2. discriminate. }
    destruct (get_word_aligns _ _ _) as [descr|d] eqn:Hd.
    + apply outcome_upstream; assumption.
    + rewrite items_loop_dict_get.
      destruct (dict_get d (method self)) as [pairs|] eqn:Hp.
      * destruct (pairs_loop _ _ pairs []) as [e|out] eqn:Hl.
        -- pose proof (pairs_loop_inl _ _ _ _ _ Hl) as [-> Hex].
           eapply outcome_bad_index; eassumption.
        -- apply pairs_loop_inr in Hl as (recs & -> & HF).
           eapply outcome_records; eassumption.
      * eapply outcome_no_entry; eassumption.
Qed.


(** ** The request handlers *)

Lemma align_words_loaded request w inst :
  Service.aligner_instance w = Some inst ->
  Service.align_words request w
  = match get_word_alignment inst (AlignmentRequest.st request)
            (AlignmentRequest.tt request) (Service.calls w) with
    | (inr alignments, calls') =>
        (inr {| AlignmentResponse.a := map Service.item_of alignments;
                AlignmentResponse.st := AlignmentRequest.st request;
                AlignmentResponse.tt := AlignmentRequest.tt request |},
         Service.set_calls calls' w)
    | (inl e, calls') =>
        (inl (http (status_of e) (Service.exn_str e)),
         Service.log_failure request (label_of e) e (Service.set_calls calls' w))
    end.
Proof.
  intros H. unfold Service.align_words. rewrite H.
  destruct (get_word_alignment _ _ _ _) as [[e|recs] calls']; [| reflexivity].
  unfold status_of, label_of. destruct (Service.is_ValueError e); reflexivity.
Qed.

(** X9: a request is answered 503 exactly when the model is not loaded,
    and then nothing is called, logged or changed; the health check
    answers 503 in exactly the same states. *)
Theorem align_words_unavailable (request : AlignmentRequest.t) (w : Service.World) :
  ((exists d, fst (Service.align_words request w) = inl (http 503 d))
   <-> Service.aligner_instance w = None)
  /\ (Service.aligner_instance w = None ->
      Service.align_words request w
      = (inl (http 503 "Model not loaded. Please try again later."), w))
  /\ ((exists d, Service.health_check w = inl (http 503 d))
      <-> Service.aligner_instance w = None).
Proof.
  destruct (Service.aligner_instance w) as [inst|] eqn:Hinst.
  - split; [| split].
    + split; [| discriminate]. intros [d H]. exfalso.
      rewrite (align_words_loaded request w inst Hinst) in H.
      destruct (get_word_alignment _ _ _ _) as [[e|recs] calls']; [| discriminate].
      simpl in H. unfold status_of in H.
      destruct (Service.is_ValueError e); discriminate.
    + discriminate.
    + unfold Service.health_check. rewrite Hinst.
      split; [intros [d H]; discriminate | discriminate].
  - split; [| split].
    + split; [reflexivity|]. intros _. unfold Service.align_words. rewrite Hinst.
      eexists. reflexivity.
    + intros _. unfold Service.align_words. rewrite Hinst. reflexivity.
    + unfold Service.health_check. rewrite Hinst.
      split; [reflexivity|]. intros _. eexists. reflexivity.
Qed.

(** X10: with the model loaded, a request is answered 400 exactly when
    one of its two texts is empty or all whitespace, or the aligner
    raises an exception that is a [ValueError].  In the first case the
    detail is "Source or target text is empty" and the aligner is not
    called; in the second the detail is the text of the aligner's
    exception. *)
Theorem align_words_bad_request (request : AlignmentRequest.t) (w : Service.World)
    (inst : WordAligner) :
  Service.aligner_instance w = Some inst ->
  ((exists d, fst (Service.align_words request w) = inl (http 400 d))
   <-> blank (AlignmentRequest.st request)
       \/ blank (AlignmentRequest.tt request)
       \/ exists r,
            get_word_aligns (aligner inst)
              (words (tokenize inst (AlignmentRequest.st request)))
              (words (tokenize inst (AlignmentRequest.tt request))) = inl r
            /\ is_value_error r = true)
  /\ (blank (AlignmentRequest.st request) \/ blank (AlignmentRequest.tt request) ->
      fst (Service.align_words request w)
      = inl (http 400 "Source or target text is empty")
      /\ Service.calls (snd (Service.align_words request w)) = Service.calls w)
  /\ (forall r,
         ~ blank (AlignmentRequest.st request) ->
         ~ blank (AlignmentRequest.tt request) ->
         get_word_aligns (aligner inst)
           (words (tokenize inst (AlignmentRequest.st request)))
           (words (tokenize inst (AlignmentRequest.tt request))) = inl r ->
         is_value_error r = true ->
         fst (Service.align_words request w) = inl (http 400 (raised_str r))).
Proof.
  intros Hinst. rewrite (align_words_loaded request w inst Hinst).
  pose proof (get_word_alignment_outcome inst (AlignmentRequest.st request)
                (AlignmentRequest.tt request) (Service.calls w)) as Ho.
  inversion Ho as [Hb E | r N1 N2 Hd E | d N1 N2 Hd Hp E
                   | d pairs N1 N2 Hd Hp Hex E | d pairs recs N1 N2 Hd Hp HF E];
    simpl.
  - split; [| split].
    + split; [intros _; tauto | intros _; eexists; reflexivity].
    + intros _. split; reflexivity.
    + tauto.
  - unfold status_of. simpl. split; [| split].
    + split.
      * intros [x Hx]. right. right. exists r. split; [exact Hd|].
        destruct (is_value_error r); [reflexivity | discriminate].
      * intros [H | [H | (r' & Hr' & Hr)]]; [tauto | tauto |].
        assert (r' = r) by congruence. subst r'.
        rewrite Hr. eexists. reflexivity.
    + tauto.
    + intros r' _ _ Hr' Hr. assert (r' = r) by congruence. subst r'.
      rewrite Hr. reflexivity.
  - split; [| split].
    + split; [intros [x Hx]; discriminate|].
      intros [H | [H | (r & Hr & _)]]; [tauto | tauto | congruence].
    + tauto.
    + intros r _ _ Hr. congruence.
  - split; [| split].
    + split; [intros [x Hx]; discriminate|].
      intros [H | [H | (r & Hr & _)]]; [tauto | tauto | congruence].
    + tauto.
    + intros r _ _ Hr. congruence.
  - split; [| split].
    + split; [intros [x Hx]; discriminate|].
      intros [H | [H | (r & Hr & _)]]; [tauto | tauto | congruence].
    + tauto.
    + intros r _ _ Hr. congruence.
Qed.

Lemma align_words_bad_request_witness :
  ((exists d, fst (Service.align_words cat_request value_error_world) = inl (http 400 d))
   <-> blank (AlignmentRequest.st cat_request)
       \/ blank (AlignmentRequest.tt cat_request)
       \/ exists r,
            get_word_aligns (aligner value_error_self)
              (words (tokenize value_error_self (AlignmentRequest.st cat_request)))
              (words (tokenize value_error_self (AlignmentRequest.tt cat_request))) = inl r
            /\ is_value_error r = true)
  /\ (blank (AlignmentRequest.st cat_request) \/ blank (AlignmentRequest.tt cat_request) ->
      fst (Service.align_words cat_request value_error_world)
      = inl (http 400 "Source or target text is empty")
      /\ Service.calls (snd (Service.align_words cat_request value_error_world))
         = Service.calls value_error_world)
  /\ (forall r,
         ~ blank (AlignmentRequest.st cat_request) ->
         ~ blank (AlignmentRequest.tt cat_request) ->
         get_word_aligns (aligner value_error_self)
           (words (tokenize value_error_self (AlignmentRequest.st cat_request)))
           (words (tokenize value_error_self (AlignmentRequest.tt cat_request))) = inl r ->
         is_value_error r = true ->
         fst (Service.align_words cat_request value_error_world)
         = inl (http 400 (raised_str r))).
Proof.
  apply (align_words_bad_request cat_request value_error_world value_error_self).
  reflexivity.
Defined.



Lemma get_word_alignment_records self src tgt log recs log' :
  get_word_alignment self src tgt log = (inr recs, log') ->
  Forall (fun r => round_trip src tgt r
                   /\ span_ok src (src_word r) (src_indexes r)
                   /\ span_ok tgt (target_word r) (target_indexes r)) recs.
Proof.
  intros H. apply get_word_alignment_inr in H as (d & _ & H).
  destruct (dict_get d (method self)) as [pairs|].
  - induction H as [|p r pairs recs Hp _ IH]; constructor.
    + split.
      * exact (resolve_pair_round_trip self src tgt p r Hp).
      * exact (resolve_pair_span_ok self src tgt p r Hp).
    + exact IH.
  - subst. constructor.
Qed.

(** X12: a 200 response can be checked on its own.  It repeats the two
    texts of the request; it has one item per record of
    [get_word_alignment], in order; each item's words are the slices of
    the response's own texts at the item's spans, and the spans are
    non-empty and within those texts.  Nothing is logged. *)
Theorem align_words_response_consistent (request : AlignmentRequest.t)
    (w w' : Service.World) (response : AlignmentResponse.t) :
  Service.align_words request w = (inr response, w') ->
  AlignmentResponse.st response = AlignmentRequest.st request
  /\ AlignmentResponse.tt response = AlignmentRequest.tt request
  /\ (exists inst recs calls',
         Service.aligner_instance w = Some inst
         /\ get_word_alignment inst (AlignmentRequest.st request)
              (AlignmentRequest.tt request) (Service.calls w) = (inr recs, calls')
         /\ AlignmentResponse.a response = map Service.item_of recs)
  /\ Forall (fun item =>
               AlignmentResponseItem.sw item
               = slice (AlignmentResponse.st response)
                   (fst (AlignmentResponseItem.si item)) (snd (AlignmentResponseItem.si item))
               /\ AlignmentResponseItem.tw item
                  = slice (AlignmentResponse.tt response)
                      (fst (AlignmentResponseItem.ti item))
                      (snd (AlignmentResponseItem.ti item))
               /\ span_ok (AlignmentResponse.st response)
                    (AlignmentResponseItem.sw item) (AlignmentResponseItem.si item)
               /\ span_ok (AlignmentResponse.tt response)
                    (AlignmentResponseItem.tw item) (AlignmentResponseItem.ti item))
       (AlignmentResponse.a response)
  /\ Service.logged w' = Service.logged w.
Proof.
  intros H.
  destruct (Service.aligner_instance w) as [inst|] eqn:Hinst.
  2: { unfold Service.align_words in H. rewrite Hinst in H. discriminate. }
  rewrite (align_words_loaded request w inst Hinst) in H.
  destruct (get_word_alignment _ _ _ _) as [[e|recs] calls'] eqn:Hg; [discriminate|].
  injection H as <- <-. simpl.
  split; [reflexivity | split; [reflexivity | split; [| split; [| reflexivity]]]].
  - exists inst, recs, calls'. auto.
  - apply Forall_forall. intros item Hin.
    apply in_map_iff in Hin as (r & <- & Hr).
    pose proof (get_word_alignment_records _ _ _ _ _ _ Hg) as HF.
    rewrite Forall_forall in HF. destruct (HF r Hr) as ([R1 R2] & S1 & S2).
    simpl. auto.
Qed.

Lemma align_words_response_consistent_witness :
  AlignmentResponse.st demo_response
  = AlignmentRequest.st cat_request
  /\ AlignmentResponse.tt demo_response
     = AlignmentRequest.tt cat_request
  /\ (exists inst recs calls',
         Service.aligner_instance loaded_world = Some inst
         /\ get_word_alignment inst (AlignmentRequest.st cat_request)
              (AlignmentRequest.tt cat_request) (Service.calls loaded_world)
            = (inr recs, calls')
         /\ AlignmentResponse.a demo_response
            = map Service.item_of recs)
  /\ Forall (fun item =>
               AlignmentResponseItem.sw item
               = slice (AlignmentResponse.st demo_response)
                   (fst (AlignmentResponseItem.si item)) (snd (AlignmentResponseItem.si item))
               /\ AlignmentResponseItem.tw item
                  = slice (AlignmentResponse.tt demo_response)
                      (fst (AlignmentResponseItem.ti item))
                      (snd (AlignmentResponseItem.ti item))
               /\ span_ok (AlignmentResponse.st demo_response)
                    (AlignmentResponseItem.sw item) (AlignmentResponseItem.si item)
               /\ span_ok (AlignmentResponse.tt demo_response)
                    (AlignmentResponseItem.tw item) (AlignmentResponseItem.ti item))
       (AlignmentResponse.a demo_response)
  /\ Service.logged (snd (Service.align_words cat_request loaded_world))
     = Service.logged loaded_world.
Proof.
  apply (align_words_response_consistent cat_request loaded_world
           (snd (Service.align_words cat_request loaded_world))
           demo_response).
  reflexivity.
Defined.

Lemma align_words_instance request w :
  Service.aligner_instance (snd (Service.align_words request w))
  = Service.aligner_instance w.
Proof.
  unfold Service.align_words.
  destruct (Service.aligner_instance w) as [inst|] eqn:Hinst; [| exact Hinst].
  destruct (get_word_alignment _ _ _ _) as [[e|recs] calls']; [| exact Hinst].
  destruct (Service.is_ValueError e); exact Hinst.
Qed.

(** X13: a request never changes the global [aligner_instance], and it
    writes to the log only when it fails with 400 or 500: then exactly
    three error lines are added, the source text, the target text, and
    the detail that is sent back, labelled as a validation error for 400
    and as an unexpected error for 500.  A 200 or a 503 logs nothing. *)
Theorem align_words_logging (request : AlignmentRequest.t) (w : Service.World) :
  Service.aligner_instance (snd (Service.align_words request w))
  = Service.aligner_instance w
  /\ match fst (Service.align_words request w) with
     | inr _ =>
         Service.logged (snd (Service.align_words request w)) = Service.logged w
     | inl e =>
         if HTTPException.status_code e =? 503 then
           Service.logged (snd (Service.align_words request w)) = Service.logged w
         else
           Service.logged (snd (Service.align_words request w))
           = Service.logged w
             ++ [ (Service.ERROR, of_string "Source text: " ++ AlignmentRequest.st request);
                  (Service.ERROR, of_string "Target text: " ++ AlignmentRequest.tt request);
                  (Service.ERROR,
                   of_string (if HTTPException.status_code e =? 400
                              then "Validation error: " else "Unexpected error: ")
                   ++ of_string (HTTPException.detail e)) ]
     end.
Proof.
  split; [apply align_words_instance|].
  destruct (Service.aligner_instance w) as [inst|] eqn:Hinst.
  - rewrite (align_words_loaded request w inst Hinst).
    destruct (get_word_alignment _ _ _ _) as [[e|recs] calls']; [| reflexivity].
    unfold Service.log_failure, Service.emit, Service.set_calls, status_of, label_of.
    simpl. rewrite <- !app_assoc. simpl.
    destruct (Service.is_ValueError e); reflexivity.
  - unfold Service.align_words. rewrite Hinst. reflexivity.
Qed.

(** X14: startup fails exactly when the external constructor fails, and
    then with the constructor's error: the default key is a recognised
    one, so there is no [KeyError] at startup.  On failure the global
    keeps its value; on success it holds an instance of method ["mwmf"]
    built on the aligner the constructor returned.  Startup does not call
    the aligner. *)
Theorem lifespan_startup_outcome
    (SentenceAligner_new : string -> string -> string -> string + SentenceAligner)
    (w : Service.World) :
  (forall e,
      fst (Service.lifespan_startup SentenceAligner_new w) = inl e
      <-> exists descr,
            SentenceAligner_new "bert"%string "bpe"%string "m"%string = inl descr
            /\ e = UpstreamError descr)
  /\ (forall e,
         fst (Service.lifespan_startup SentenceAligner_new w) = inl e ->
         Service.aligner_instance (snd (Service.lifespan_startup SentenceAligner_new w))
         = Service.aligner_instance w)
  /\ (forall a,
         SentenceAligner_new "bert"%string "bpe"%string "m"%string = inr a ->
         fst (Service.lifespan_startup SentenceAligner_new w) = inr tt
         /\ Service.aligner_instance (snd (Service.lifespan_startup SentenceAligner_new w))
            = Some {| aligner := a; method := "mwmf" |})
  /\ Service.calls (snd (Service.lifespan_startup SentenceAligner_new w))
     = Service.calls w.
Proof.
  unfold Service.lifespan_startup, WordAligner_init.
  destruct (SentenceAligner_new "bert"%string "bpe"%string "m"%string) as [descr|a];
    simpl.
  - split; [| split; [| split]].
    + intros e. split.
      * intros [= <-]. eauto.
      * intros (descr' & [= <-] & ->). reflexivity.
    + reflexivity.
    + discriminate.
    + reflexivity.
  - split; [| split; [| split]].
    + intros e. split; [discriminate|]. intros (descr & H & _). discriminate.
    + discriminate.
    + intros a' [= <-]. split; reflexivity.
    + reflexivity.
Qed.

Lemma run_requests_instance requests :
  forall w,
    Service.aligner_instance (run_requests requests w) = Service.aligner_instance w.
Proof.
  unfold run_requests.
  induction requests as [|request requests IH]; intros w; simpl.
  - reflexivity.
  - rewrite IH. apply align_words_instance.
Qed.

(** X15: once startup has succeeded, the service stays available: after
    any sequence of requests, whatever their outcomes, the global still
    holds the instance of method ["mwmf"], the health check answers
    healthy, and no request is answered 503. *)
Theorem loaded_service_stays_available
    (SentenceAligner_new : string -> string -> string -> string + SentenceAligner)
    (w0 w1 : Service.World) (requests : list AlignmentRequest.t) :
  Service.lifespan_startup SentenceAligner_new w0 = (inr tt, w1) ->
  (exists inst,
      Service.aligner_instance (run_requests requests w1) = Some inst
      /\ method inst = "mwmf"%string)
  /\ Service.health_check (run_requests requests w1)
     = inr {| HealthResponse.status := "healthy";
              HealthResponse.message := "Service is running normally, model is loaded" |}
  /\ (forall request d,
         fst (Service.align_words request (run_requests requests w1))
         <> inl (http 503 d)).
Proof.
  intros Hstart.
  assert (Hinst : exists inst,
             Service.aligner_instance (run_requests requests w1) = Some inst
             /\ method inst = "mwmf"%string).
  { rewrite run_requests_instance.
    unfold Service.lifespan_startup, WordAligner_init in Hstart.
    destruct (SentenceAligner_new "bert"%string "bpe"%string "m"%string) as [descr|a];
      simpl in Hstart; [discriminate|].
    injection Hstart as <-. simpl. eauto. }
  destruct Hinst as (inst & Hinst & Hm).
  split; [eauto | split].
  - unfold Service.health_check. rewrite Hinst. reflexivity.
  - intros request d H.
    rewrite (align_words_loaded request _ inst Hinst) in H.
    destruct (get_word_alignment _ _ _ _) as [[e|recs] calls']; [| discriminate].
    simpl in H. unfold status_of in H.
    destruct (Service.is_ValueError e); discriminate.
Qed.

Lemma loaded_service_stays_available_witness :
  (exists inst,
      Service.aligner_instance
        (run_requests [blank_request; cat_request]
           (snd (Service.lifespan_startup demo_new Service.initial))) = Some inst
      /\ method inst = "mwmf"%string)
  /\ Service.health_check
       (run_requests [blank_request; cat_request]
          (snd (Service.lifespan_startup demo_new Service.initial)))
     = inr {| HealthResponse.status := "healthy";
              HealthResponse.message := "Service is running normally, model is loaded" |}
  /\ (forall request d,
         fst (Service.align_words request
                (run_requests [blank_request; cat_request]
                   (snd (Service.lifespan_startup demo_new Service.initial))))
         <> inl (http 503 d)).
Proof.
  apply (loaded_service_stays_available demo_new Service.initial
           (snd (Service.lifespan_startup demo_new Service.initial))
           [blank_request; cat_request]).
  reflexivity.
Defined.

Example service_run :
  let w1 := snd (Service.lifespan_startup demo_new Service.initial) in
  let w2 := run_requests [blank_request; cat_request] w1 in
  fst (Service.align_words blank_request w1)
  = inl (http 400 "Source or target text is empty")
  /\ fst (Service.align_words cat_request w1) = inr demo_response
  /\ Service.calls w2
     = [ ([of_string "the"; of_string "cat"], [of_string "le"; of_string "chat"]) ]
  /\ length (Service.logged w2) = 5%nat.
Proof. repeat split. Qed.

(** The three failures of a request on a loaded service that do not come
    from blank text. *)
Example align_words_aligner_value_error :
  fst (Service.align_words cat_request value_error_world)
  = inl (http 400 "invalid token").
Proof. reflexivity. Qed.

Example align_words_aligner_failure :
  fst (Service.align_words cat_request failing_world)
  = inl (http 500 "CUDA out of memory").
Proof. reflexivity. Qed.

Example align_words_bad_index :
  fst (Service.align_words cat_request bad_index_world)
  = inl (http 500 "list index out of range").
Proof. reflexivity. Qed.
